(** * goparsec: the parser combinators of [parsec.go], embedded and verified

    The Go package [parsec] builds recursive-descent parsers out of closures
    of type [Parser], taking a pointer to a [ParseState] and returning an
    [interface{}] and an [error].  A parser mutates the state it is handed
    and returns a value together with an error.  Here a parser is a function
    from the state before the call to what the call does: it returns (a
    value, an error or nil, and the state it leaves behind), or it panics
    (an index out of range, a failed type assertion), or it needs more
    nested calls than the fuel allows.  Fuel bounds only the run-time
    recursion of [Many], [SepBy1] and [ManyTil], which in Go is bounded by
    nothing but the stack. *)

From Stdlib Require Import ZArith List Ascii String Bool Lia.
Import ListNotations.

Local Open Scope string_scope.
Local Open Scope Z_scope.

Set Warnings "-register-all".

Module parsec.

(** ** Integers

    Go's [int], taken at 64 bits: a [Z] with the wrap-around of [++]
    written out. *)

Definition min_int : Z := - 2 ^ 63.
Definition max_int : Z := 2 ^ 63 - 1.

Definition wrap (z : Z) : Z := (z + 2 ^ 63) mod 2 ^ 64 - 2 ^ 63.

Definition incr (z : Z) : Z := wrap (z + 1).

(** [len(s)] of a Go string: the number of its bytes. *)
Definition len (s : string) : Z := Z.of_nat (String.length s).

(** ** Data model *)

(** [interface{}] as the package uses it: nil, a byte, a string, a slice of
    values; [VOther] stands for any other dynamic value a caller's parser may
    return. *)
Inductive Value : Type :=
| VNil
| VByte (c : ascii)
| VString (s : string)
| VList (xs : list Value)
| VOther (tag : nat).

Record ParseState : Type := mkState {
  Source : string;
  Pos : Z;
  Line : Z
}.

(** [ParseErr]'s own [Line] field is [ErrLine] here, [Line] being taken by
    [ParseState]. *)
Record ParseErr : Type := mkErr {
  Reason : string;
  ErrLine : Z
}.

(** A non-nil [error]: a [ParseErr], or some other implementation of the
    interface coming from a caller's parser. *)
Inductive error : Type :=
| EParse (e : ParseErr)
| EOther (text : string).

(** What a call on a pointer to a [ParseState] does. *)
Inductive Run (A : Type) : Type :=
| Ret (a : A) (st : ParseState)
| Panic
| Diverge.

Arguments Ret {A} a st.
Arguments Panic {A}.
Arguments Diverge {A}.

Definition Parser : Type := ParseState -> Run (Value * option error).

Definition set_Pos (st : ParseState) (z : Z) : ParseState :=
  {| Source := Source st; Pos := z; Line := Line st |}.

Definition set_Line (st : ParseState) (z : Z) : ParseState :=
  {| Source := Source st; Pos := Pos st; Line := z |}.

(** The state [Parse] builds for a source; [Parse] runs the parser on it.
    The state it ends in, local to [Parse] in Go, is kept in the result. *)
Definition start (source : string) : ParseState :=
  {| Source := source; Pos := 0; Line := 1 |}.

Definition Parse (source : string) (p : Parser) : Run (Value * option error) :=
  p (start source).

(** ** Formatting

    [%c] applied to a byte prints the code point of that value in UTF-8: one
    byte below 128, two bytes from 128 on.  [%s] prints the string as is. *)
Definition fmt_c (c : ascii) : string :=
  let n := N_of_ascii c in
  if (n <? 128)%N then String c EmptyString
  else String (ascii_of_N (192 + n / 64))
         (String (ascii_of_N (128 + n mod 64)) EmptyString).

Definition trap (st : ParseState) (reason : string) : error :=
  EParse {| Reason := reason; ErrLine := Line st |}.

(** ** The cursor primitive *)

Definition newline : ascii := "010"%char.

Definition next (pred : ascii -> bool) (st : ParseState) : Run (ascii * bool) :=
  if Pos st <? len (Source st) then
    if Pos st <? 0 then Panic
    else
      match String.get (Z.to_nat (Pos st)) (Source st) with
      | None => Panic
      | Some c =>
          if negb (pred c) then Ret (c, false) st
          else
            let st1 := set_Pos st (incr (Pos st)) in
            let st2 := if Ascii.eqb c newline
                       then set_Line st1 (incr (Line st1)) else st1 in
            Ret (c, true) st2
      end
  else Ret (zero, false) st.

(** ** Monadic core *)

Definition Bind (p : Parser) (f : Value -> Parser) : Parser :=
  fun st =>
    match p st with
    | Ret (x, None) st1 => f x st1
    | Ret (_, Some e) st1 => Ret (VNil, Some e) st1
    | Panic => Panic
    | Diverge => Diverge
    end.

Definition Bind_ (p1 p2 : Parser) : Parser :=
  fun st =>
    match p1 st with
    | Ret (_, None) st1 => p2 st1
    | Ret (_, Some e) st1 => Ret (VNil, Some e) st1
    | Panic => Panic
    | Diverge => Diverge
    end.

Definition Return (x : Value) : Parser :=
  fun st => Ret (x, None) st.

(** ** Control combinators *)

Definition Either (p1 p2 : Parser) : Parser :=
  fun st =>
    let oldPos := Pos st in
    match p1 st with
    | Ret (x, None) st1 => Ret (x, None) st1
    | Ret (_, Some e) st1 =>
        if Pos st1 =? oldPos then p2 st1 else Ret (VNil, Some e) st1
    | Panic => Panic
    | Diverge => Diverge
    end.

Definition Try (p : Parser) : Parser :=
  fun st =>
    let oldPos := Pos st in
    match p st with
    | Ret (x, None) st1 => Ret (x, None) st1
    | Ret (_, Some e) st1 => Ret (VNil, Some e) (set_Pos st1 oldPos)
    | Panic => Panic
    | Diverge => Diverge
    end.

(** ** Primitive matchers *)

Definition AnyChar : Parser :=
  fun st =>
    match next (fun _ => true) st with
    | Ret (c, true) st1 => Ret (VByte c, None) st1
    | Ret (_, false) st1 =>
        Ret (VNil, Some (trap st1 "Unexpected end of file")) st1
    | Panic => Panic
    | Diverge => Diverge
    end.

Definition Eof : Parser :=
  fun st =>
    match next (fun _ => true) st with
    | Ret (c, true) st1 =>
        Ret (VNil,
             Some (trap st1 ("Expected end of file but got '"
                             ++ fmt_c c ++ "'")))
            st1
    | Ret (_, false) st1 => Ret (VNil, None) st1
    | Panic => Panic
    | Diverge => Diverge
    end.

Definition Char (c : ascii) : Parser :=
  fun st =>
    match next (fun b => Ascii.eqb b c) st with
    | Ret (x, true) st1 => Ret (VByte x, None) st1
    | Ret (_, false) st1 =>
        Ret (VNil, Some (trap st1 ("Expected '" ++ fmt_c c ++ "'"))) st1
    | Panic => Panic
    | Diverge => Diverge
    end.

(** [bytes.IndexByte]: the index of the first [c] in [set], or -1. *)
Fixpoint IndexByte (set : string) (c : ascii) : Z :=
  match set with
  | EmptyString => -1
  | String b rest =>
      if Ascii.eqb b c then 0
      else let i := IndexByte rest c in if i <? 0 then -1 else i + 1
  end.

Definition OneOf (set : string) : Parser :=
  fun st =>
    match next (fun c => IndexByte set c >=? 0) st with
    | Ret (x, true) st1 => Ret (VByte x, None) st1
    | Ret (x, false) st1 =>
        Ret (VNil,
             Some (trap st1 ("Expected one of '" ++ set ++ "' but got '"
                             ++ fmt_c x ++ "'")))
            st1
    | Panic => Panic
    | Diverge => Diverge
    end.

Definition NoneOf (set : string) : Parser :=
  fun st =>
    match next (fun c => IndexByte set c <? 0) st with
    | Ret (x, true) st1 => Ret (VByte x, None) st1
    | Ret (x, false) st1 =>
        Ret (VNil, Some (trap st1 ("Unexpected '" ++ fmt_c x ++ "'"))) st1
    | Panic => Panic
    | Diverge => Diverge
    end.

(** The loop of [String]: [cs] is what is left of [s] to match. *)
Fixpoint String_loop (s : string) (oldPos : Z) (cs : string)
  (st : ParseState) : Run (Value * option error) :=
  match cs with
  | EmptyString => Ret (VString s, None) st
  | String c cs' =>
      match next (fun b => Ascii.eqb b c) st with
      | Ret (_, true) st1 => String_loop s oldPos cs' st1
      | Ret (_, false) st1 =>
          let st2 := set_Pos st1 oldPos in
          Ret (VNil, Some (trap st2 ("Expected '" ++ s ++ "'"))) st2
      | Panic => Panic
      | Diverge => Diverge
      end
  end.

Definition String (s : string) : Parser :=
  fun st => String_loop s (Pos st) s st.

(** ** Repetition combinators *)

Definition Option (x : Value) (p : Parser) : Parser :=
  Either p (Return x).

(** [Return(append([]interface{}{x}, xs.([]interface{})...))]: the type
    assertion panics on anything but a slice. *)
Definition tail (x : Value) (xs : Value) : Parser :=
  match xs with
  | VList l => Return (VList (x :: l))
  | _ => fun _ => Panic
  end.

(** [Many] and [Many1] call each other at run time: [Many1]'s [head] builds
    [Many(p)] once [p] has succeeded.  One unit of fuel per nested [Many];
    the body of [Many1] is written out inside [Many], and [Many_unfold]
    below folds it back: [Many (S fuel) p = Option [] (Many1 fuel p)]. *)
Fixpoint Many (fuel : nat) (p : Parser) {struct fuel} : Parser :=
  match fuel with
  | O => fun _ => Diverge
  | S fuel' =>
      let head := fun x => Bind (Many fuel' p) (tail x) in
      Option (VList []) (Bind p head)
  end.

Definition Many1 (fuel : nat) (p : Parser) : Parser :=
  let head := fun x => Bind (Many fuel p) (tail x) in
  Bind p head.

Definition Maybe (p : Parser) : Parser :=
  Option VNil (Bind_ p (Return VNil)).

Definition Skip (fuel : nat) (p : Parser) : Parser :=
  Maybe (Many fuel p).

Definition Between (start_ end_ p : Parser) : Parser :=
  let keep := fun x => Bind_ end_ (Return x) in
  Bind_ start_ (Bind p keep).

Definition SepBy1 (fuel : nat) (p sep : Parser) : Parser :=
  let head := fun x => Bind (Many fuel (Bind_ sep p)) (tail x) in
  Bind p head.

Definition SepBy (fuel : nat) (p sep : Parser) : Parser :=
  Option (VList []) (SepBy1 fuel p sep).

Fixpoint ManyTil (fuel : nat) (p end_ : Parser) {struct fuel} : Parser :=
  match fuel with
  | O => fun _ => Diverge
  | S fuel' =>
      let head := fun x => Bind (ManyTil fuel' p end_) (tail x) in
      let term := Bind_ (Try end_) (Return (VList [])) in
      Either term (Bind p head)
  end.

(** Of the parsers built at package initialisation, those used below. *)
Definition Digit : Parser := OneOf "0123456789".
Definition Newline : Parser :=
  OneOf (String.String "013"%char (String.String "010"%char EmptyString)).
Definition Eol : Parser := Either Eof Newline.

(** ** Vocabulary of the statements *)

(** The state [next] leaves when it accepts the byte [c]. *)
Definition consume (c : ascii) (st : ParseState) : ParseState :=
  {| Source := Source st;
     Pos := incr (Pos st);
     Line := if Ascii.eqb c newline then incr (Line st) else Line st |}.

(** Line feeds in a string, and [n] increments of a line counter. *)
Fixpoint count_lf (s : string) : nat :=
  match s with
  | EmptyString => O
  | String.String c s' =>
      if Ascii.eqb c newline then S (count_lf s') else count_lf s'
  end.

Fixpoint bump (n : nat) (z : Z) : Z :=
  match n with
  | O => z
  | S n' => bump n' (incr z)
  end.

(** States a Go program can be in while parsing: the cursor is not negative
    and the source is no longer than an [int] can count. *)
Definition in_bounds (st : ParseState) : Prop :=
  0 <= Pos st /\ len (Source st) <= max_int.

Definition remaining (st : ParseState) : nat :=
  Z.to_nat (len (Source st) - Pos st).

(** A parser that, within bounds, stays there and never moves the cursor
    backwards. *)
Definition forward (q : Parser) : Prop :=
  forall st x err st1,
    in_bounds st -> q st = Ret (x, err) st1 ->
    in_bounds st1 /\ Pos st <= Pos st1.

(** [many_run q st xs st']: [q] succeeds [length xs] times in a row from
    [st], yielding [xs] and reaching [st']. *)
Inductive many_run (q : Parser) :
  ParseState -> list Value -> ParseState -> Prop :=
| many_run_nil (st : ParseState) : many_run q st [] st
| many_run_cons (st st1 st2 : ParseState) (x : Value) (xs : list Value) :
    q st = Ret (x, None) st1 ->
    many_run q st1 xs st2 ->
    many_run q st (x :: xs) st2.

(** [sep_run p sep st seps xs st']: from [st], alternately [sep] then [p]
    succeed; [seps] are the values of the separators matched, [xs] those of
    the elements, and [st'] is the state after the last element. *)
Inductive sep_run (p sep : Parser) :
  ParseState -> list Value -> list Value -> ParseState -> Prop :=
| sep_run_nil (st : ParseState) : sep_run p sep st [] [] st
| sep_run_cons (st st1 st2 st3 : ParseState) (y x : Value)
    (seps xs : list Value) :
    sep st = Ret (y, None) st1 ->
    p st1 = Ret (x, None) st2 ->
    sep_run p sep st2 seps xs st3 ->
    sep_run p sep st (y :: seps) (x :: xs) st3.

(** Parsers and inputs the examples run. *)
Definition ab : Parser := Bind_ (Char "a") (Char "b").
Definition nl_b : Parser := Bind_ (Char newline) (Char "b").
Definition src_nl_c : string := String.String newline "c".
Definition str_a_nl_b : string :=
  String.String "a" (String.String newline "b").
Definition src_a_nl_c : string :=
  String.String "a" (String.String newline "c").

(** ** The rest of the package

    [Fail] formats its message with [fmt.Sprintf] and no arguments; what
    that makes of a message is left to [Sprintf0]. *)
Section Formatting.
Variable Sprintf0 : string -> string.
Definition Fail (msg : string) : Parser :=
  fun st => Ret (VNil, Some (trap st (Sprintf0 msg))) st.
End Formatting.

Definition Lowercase : Parser := OneOf "abcdefghijklmnopqrstuvwxyz".
Definition Uppercase : Parser := OneOf "ABCDEFGHIJKLMNOPQRSTUVWXYZ".
Definition Letter : Parser := Either Lowercase Uppercase.
Definition Letters (fuel : nat) : Parser := Many1 fuel Letter.
Definition Digits (fuel : nat) : Parser := Many1 fuel Digit.
Definition AlphaNum : Parser := Either Letter Digit.
Definition AlphaNums (fuel : nat) : Parser := Many1 fuel AlphaNum.
Definition HexDigit : Parser := OneOf "0123456789acdefABCDEF".
Definition HexDigits (fuel : nat) : Parser := Many1 fuel HexDigit.
Definition Punctuation : Parser :=
  OneOf ("!@#$%^&*()-=+[]{}\|;:'" ++ String.String "034"%char ",./<>?~`").
Definition Space : Parser :=
  OneOf (String.String " "%char (String.String "009"%char EmptyString)).
Definition Spaces (fuel : nat) : Parser := Skip fuel Space.


(** ** Vocabulary of the further properties *)

(** The byte under the cursor, if any. *)
Definition peek (st : ParseState) : option ascii :=
  String.get (Z.to_nat (Pos st)) (Source st).

(** The input from the cursor to the end. *)
Definition rest (st : ParseState) : string :=
  substring (Z.to_nat (Pos st)) (remaining st) (Source st).

(** The longest prefix of bytes satisfying [pred]. *)
Fixpoint span (pred : ascii -> bool) (s : string) : string :=
  match s with
  | EmptyString => EmptyString
  | String.String c s' =>
      if pred c then String.String c (span pred s') else EmptyString
  end.

Fixpoint bytes (s : string) : list Value :=
  match s with
  | EmptyString => []
  | String.String c s' => VByte c :: bytes s'
  end.

(** The state after the bytes [s] have been consumed from [st]. *)
Definition after (s : string) (st : ParseState) : ParseState :=
  {| Source := Source st;
     Pos := Pos st + len s;
     Line := bump (count_lf s) (Line st) |}.

(** [p] is the one-byte matcher of [pred]: it accepts the byte under the
    cursor when [pred] holds of it, and otherwise fails where it stands. *)
Definition matcher (pred : ascii -> bool) (p : Parser) : Prop :=
  forall st, in_bounds st ->
    match peek st with
    | Some c =>
        if pred c then p st = Ret (VByte c, None) (consume c st)
        else exists e, p st = Ret (VNil, Some e) st
    | None => exists e, p st = Ret (VNil, Some e) st
    end.


Definition in_set (set : string) (c : ascii) : bool := IndexByte set c >=? 0.


(** [til_run p end_ st xs st']: from [st] the terminator fails and [p]
    succeeds, once per element of [xs], each [p] starting where the failed
    terminator left the state but for the position, which is put back; then
    the terminator succeeds and leaves [st']. *)
Inductive til_run (p end_ : Parser) :
  ParseState -> list Value -> ParseState -> Prop :=
| til_run_stop (st st1 : ParseState) (y : Value) :
    end_ st = Ret (y, None) st1 ->
    til_run p end_ st [] st1
| til_run_step (st st1 st2 st3 : ParseState) (y x : Value) (e : error)
    (xs : list Value) :
    end_ st = Ret (y, Some e) st1 ->
    p (set_Pos st1 (Pos st)) = Ret (x, None) st2 ->
    til_run p end_ st2 xs st3 ->
    til_run p end_ st (x :: xs) st3.


(** The cursor is inside the source, which an [int] can measure. *)
Definition cursor_ok (st : ParseState) : Prop :=
  0 <= Pos st <= len (Source st) /\ len (Source st) <= max_int.

(** From a state with the cursor inside the source, an orderly parser does
    not panic, and when it returns it has kept the source, has not moved the
    cursor backwards nor out of the source, and gives nil with an error. *)
Definition orderly (q : Parser) : Prop :=
  forall st, cursor_ok st ->
    match q st with
    | Ret (v, err) st1 =>
        cursor_ok st1 /\ Source st1 = Source st /\ Pos st <= Pos st1 /\
        (err <> None -> v = VNil)
    | Panic => False
    | Diverge => True
    end.

(** * Lemmas

    ** Arithmetic of [int] *)

Lemma wrap_in_range (z : Z) : min_int <= z <= max_int -> wrap z = z.
Proof.
  unfold wrap, min_int, max_int. intros H.
  rewrite Z.mod_small; lia.
Qed.

Lemma incr_in_range (z : Z) : min_int <= z < max_int -> incr z = z + 1.
Proof.
  intros H. unfold incr. apply wrap_in_range. lia.
Qed.

(** ** The cursor primitive [next] *)

Lemma get_inside (s : string) : forall n : nat,
  (n < String.length s)%nat -> exists c, String.get n s = Some c.
Proof.
  induction s as [|a s IH]; simpl; intros n Hn.
  - lia.
  - destruct n as [|n].
    + now exists a.
    + apply IH. lia.
Qed.

Lemma get_outside (s : string) : forall n : nat,
  (String.length s <= n)%nat -> String.get n s = None.
Proof.
  induction s as [|a s IH]; simpl; intros n Hn.
  - reflexivity.
  - destruct n as [|n]; [lia | apply IH; lia].
Qed.

Lemma next_at_end (pred : ascii -> bool) (st : ParseState) :
  len (Source st) <= Pos st -> next pred st = Ret (zero, false) st.
Proof.
  intros H. unfold next.
  destruct (Z.ltb_spec (Pos st) (len (Source st))); [lia | reflexivity].
Qed.

Lemma next_inside (pred : ascii -> bool) (st : ParseState) (c : ascii) :
  0 <= Pos st ->
  String.get (Z.to_nat (Pos st)) (Source st) = Some c ->
  next pred st =
    if pred c then Ret (c, true) (consume c st) else Ret (c, false) st.
Proof.
  intros H0 Hget. unfold next.
  destruct (Z.ltb_spec (Pos st) (len (Source st))) as [Hlt|Hge].
  - destruct (Z.ltb_spec (Pos st) 0); [lia|].
    rewrite Hget. destruct (pred c); simpl; [|reflexivity].
    unfold consume. destruct (Ascii.eqb c newline); reflexivity.
  - rewrite get_outside in Hget; [discriminate|].
    unfold len in Hge. lia.
Qed.

Lemma next_negative_panics (pred : ascii -> bool) (st : ParseState) :
  Pos st < 0 -> next pred st = Panic.
Proof.
  intros Hneg. unfold next, len.
  destruct (Z.ltb_spec (Pos st) (Z.of_nat (String.length (Source st))));
    [|lia].
  destruct (Z.ltb_spec (Pos st) 0); [reflexivity | lia].
Qed.

Lemma get_at_pos (st : ParseState) :
  0 <= Pos st < len (Source st) ->
  exists c, String.get (Z.to_nat (Pos st)) (Source st) = Some c.
Proof.
  intros H. apply get_inside. unfold len in H. lia.
Qed.

Lemma consume_Pos (c : ascii) (st : ParseState) :
  Pos st < len (Source st) -> len (Source st) <= max_int -> 0 <= Pos st ->
  Pos (consume c st) = Pos st + 1.
Proof.
  intros. simpl. apply incr_in_range. unfold min_int, max_int in *. lia.
Qed.

Lemma next_cases (pred : ascii -> bool) (st : ParseState) :
  next pred st = Panic \/
  (exists c, next pred st = Ret (c, false) st) \/
  (exists c, 0 <= Pos st < len (Source st) /\
             next pred st = Ret (c, true) (consume c st)).
Proof.
  destruct (Z.lt_ge_cases (Pos st) (len (Source st))) as [Hin|Hout].
  - destruct (Z.lt_ge_cases (Pos st) 0) as [Hneg|Hpos].
    + left. unfold next.
      destruct (Z.ltb_spec (Pos st) (len (Source st))); [|lia].
      destruct (Z.ltb_spec (Pos st) 0); [reflexivity | lia].
    + destruct (get_at_pos st (conj Hpos Hin)) as [c Hc].
      rewrite (next_inside pred st c Hpos Hc).
      destruct (pred c); right; [right | left]; eauto.
  - right. left. exists zero. now apply next_at_end.
Qed.

Lemma next_no_panic (pred : ascii -> bool) (st : ParseState) :
  0 <= Pos st -> next pred st <> Panic.
Proof.
  intros Hpos.
  destruct (Z.lt_ge_cases (Pos st) (len (Source st))) as [Hin|Hout].
  - destruct (get_at_pos st (conj Hpos Hin)) as [c Hc].
    rewrite (next_inside pred st c Hpos Hc). destruct (pred c); discriminate.
  - rewrite next_at_end by lia. discriminate.
Qed.

Lemma OneOf_fails_in_place (set : string) (st st1 : ParseState)
  (x : Value) (e : error) :
  OneOf set st = Ret (x, Some e) st1 -> Pos st1 = Pos st.
Proof.
  unfold OneOf. intros H.
  destruct (next_cases (fun c => IndexByte set c >=? 0) st)
    as [Hn|[[c Hn]|[c [_ Hn]]]]; rewrite Hn in H; try discriminate H.
  injection H as _ _ <-. reflexivity.
Qed.

Lemma OneOf_returns (set : string) (st : ParseState) :
  in_bounds st ->
  exists x err st1,
    OneOf set st = Ret (x, err) st1 /\
    (err = None -> in_bounds st1 /\ (remaining st1 < remaining st)%nat).
Proof.
  intros [Hpos Hlen]. unfold OneOf.
  destruct (next_cases (fun c => IndexByte set c >=? 0) st)
    as [Hn|[[c Hn]|[c [Hin Hn]]]]; rewrite Hn.
  - now apply next_no_panic in Hn.
  - do 3 eexists. split; [reflexivity | discriminate].
  - do 3 eexists. split; [reflexivity|]. intros _.
    assert (HP : Pos (consume c st) = Pos st + 1) by (apply consume_Pos; lia).
    unfold in_bounds, remaining. rewrite HP. cbn [consume Source].
    repeat split; lia.
Qed.

(** ** Control combinators *)

(** C1. Either boundary.  Let [p1] return from [st] in [st1].  If [p1]
    succeeds, [Either p1 p2] returns its result.  If [p1] fails with the
    position where it was before the attempt, [Either p1 p2] is the run of
    [p2] from the state [p1] left, whose position is that unchanged one.  If
    [p1] fails with the position advanced by at least one byte, [Either]
    returns [p1]'s error in the state [p1] left, whatever the second parser
    is: it is not run. *)
Theorem Either_boundary (p1 p2 : Parser) (st st1 : ParseState)
  (x : Value) (err : option error) :
  p1 st = Ret (x, err) st1 ->
  (err = None -> Either p1 p2 st = Ret (x, None) st1) /\
  (forall e, err = Some e -> Pos st1 = Pos st -> Either p1 p2 st = p2 st1) /\
  (forall e, err = Some e -> Pos st + 1 <= Pos st1 ->
     forall q, Either p1 q st = Ret (VNil, Some e) st1).
Proof.
  intros Hp. unfold Either. repeat split.
  - intros ->. now rewrite Hp.
  - intros e -> Hpos. rewrite Hp, Hpos, Z.eqb_refl. reflexivity.
  - intros e -> Hpos q. rewrite Hp.
    destruct (Z.eqb_spec (Pos st1) (Pos st)); [lia | reflexivity].
Qed.

Lemma Either_boundary_witness :
  Either (Char "a") (Char "b") (start "a")
    = Ret (VByte "a", None) {| Source := "a"; Pos := 1; Line := 1 |} /\
  Either (Char "a") (Char "b") (start "b") = Char "b" (start "b") /\
  Either ab (fun _ => Panic) (start "ac")
    = Ret (VNil, Some (EParse {| Reason := "Expected 'b'"; ErrLine := 1 |}))
        {| Source := "ac"; Pos := 1; Line := 1 |}.
Proof.
  split; [|split].
  - apply (Either_boundary (Char "a") (Char "b") (start "a")
             {| Source := "a"; Pos := 1; Line := 1 |} (VByte "a") None);
      reflexivity.
  - apply (Either_boundary (Char "a") (Char "b") (start "b") (start "b") VNil
             (Some (EParse {| Reason := "Expected 'a'"; ErrLine := 1 |})))
      with (e := EParse {| Reason := "Expected 'a'"; ErrLine := 1 |});
      reflexivity.
  - apply (Either_boundary ab ab (start "ac")
             {| Source := "ac"; Pos := 1; Line := 1 |} VNil
             (Some (EParse {| Reason := "Expected 'b'"; ErrLine := 1 |})));
      [reflexivity | reflexivity | simpl; lia].
Defined.

(** C2. Try atomicity.  If [p] fails, [Try p] fails with the same error in
    the state [p] left but for the position, which is back at its value
    before the call, however far [p] had moved it.  If [p] succeeds, [Try p]
    returns what [p] returns: same value, same state. *)
Theorem Try_atomicity (p : Parser) (st st1 : ParseState)
  (x : Value) (err : option error) :
  p st = Ret (x, err) st1 ->
  (forall e, err = Some e ->
     Try p st = Ret (VNil, Some e) (set_Pos st1 (Pos st)) /\
     Pos (set_Pos st1 (Pos st)) = Pos st) /\
  (err = None -> Try p st = p st).
Proof.
  intros Hp. unfold Try. split.
  - intros e ->. rewrite Hp. split; reflexivity.
  - intros ->. rewrite Hp. reflexivity.
Qed.

Lemma Try_atomicity_witness :
  (Try ab (start "ac")
     = Ret (VNil, Some (EParse {| Reason := "Expected 'b'"; ErrLine := 1 |}))
         (set_Pos {| Source := "ac"; Pos := 1; Line := 1 |} 0) /\
   Pos (set_Pos {| Source := "ac"; Pos := 1; Line := 1 |} 0) = 0) /\
  Try ab (start "ab") = ab (start "ab").
Proof.
  split.
  - apply (Try_atomicity ab (start "ac")
             {| Source := "ac"; Pos := 1; Line := 1 |} VNil
             (Some (EParse {| Reason := "Expected 'b'"; ErrLine := 1 |})));
      reflexivity.
  - apply (Try_atomicity ab (start "ab")
             {| Source := "ab"; Pos := 2; Line := 1 |} (VByte "b") None);
      reflexivity.
Defined.

(** C5, refuted as stated: [Maybe p] does not always succeed.  On the source
    [ac], the parser [ab] reads [a] and then fails on [c]; [Maybe ab]
    returns that error with one byte consumed. *)
Lemma Maybe_can_fail :
  Maybe ab (start "ac")
    = Ret (VNil, Some (EParse {| Reason := "Expected 'b'"; ErrLine := 1 |}))
        {| Source := "ac"; Pos := 1; Line := 1 |} /\
  ~ (forall (p : Parser) (st : ParseState),
       exists st', Maybe p st = Ret (VNil, None) st').
Proof.
  split; [reflexivity|].
  intros H. destruct (H ab (start "ac")) as [st' Hst']. discriminate Hst'.
Qed.

(** C5, amended.  [Maybe p] succeeds with nil in the state [p] left when
    [p] succeeds, and when [p] fails with the position unchanged; when [p]
    fails with the position changed, [Maybe p] fails with [p]'s error and
    keeps what [p] consumed. *)
Theorem Maybe_law (p : Parser) (st st1 : ParseState)
  (x : Value) (err : option error) :
  p st = Ret (x, err) st1 ->
  (err = None -> Maybe p st = Ret (VNil, None) st1) /\
  (forall e, err = Some e -> Pos st1 = Pos st ->
     Maybe p st = Ret (VNil, None) st1) /\
  (forall e, err = Some e -> Pos st1 <> Pos st ->
     Maybe p st = Ret (VNil, Some e) st1).
Proof.
  intros Hp. unfold Maybe, Option, Either, Bind_, Return. rewrite Hp.
  repeat split.
  - intros ->. reflexivity.
  - intros e -> Hpos. rewrite Hpos, Z.eqb_refl. reflexivity.
  - intros e -> Hpos.
    destruct (Z.eqb_spec (Pos st1) (Pos st)); [contradiction | reflexivity].
Qed.

Lemma Maybe_law_witness :
  Maybe (Char "a") (start "ab")
    = Ret (VNil, None) {| Source := "ab"; Pos := 1; Line := 1 |} /\
  Maybe (Char "a") (start "b") = Ret (VNil, None) (start "b") /\
  Maybe ab (start "ac")
    = Ret (VNil, Some (EParse {| Reason := "Expected 'b'"; ErrLine := 1 |}))
        {| Source := "ac"; Pos := 1; Line := 1 |}.
Proof.
  split; [|split].
  - apply (Maybe_law (Char "a") (start "ab")
             {| Source := "ab"; Pos := 1; Line := 1 |} (VByte "a") None);
      reflexivity.
  - apply (Maybe_law (Char "a") (start "b") (start "b") VNil
             (Some (EParse {| Reason := "Expected 'a'"; ErrLine := 1 |})))
      with (e := EParse {| Reason := "Expected 'a'"; ErrLine := 1 |});
      reflexivity.
  - apply (Maybe_law ab (start "ac")
             {| Source := "ac"; Pos := 1; Line := 1 |} VNil
             (Some (EParse {| Reason := "Expected 'b'"; ErrLine := 1 |})));
      [reflexivity | reflexivity | simpl; lia].
Defined.

(** C10. Before the end of the input, [Eof] fails and consumes the byte
    under the cursor: the position is one further, the line counter has
    gone through [++] if the byte is a line feed, and the error is taken in
    that state.  As the left branch of [Either] it therefore commits: the
    result is [Eof]'s failure whatever the right branch is. *)
Theorem Eof_consumes_on_failure (st : ParseState) :
  0 <= Pos st < len (Source st) ->
  len (Source st) <= max_int ->
  exists c st1,
    String.get (Z.to_nat (Pos st)) (Source st) = Some c /\
    st1 = {| Source := Source st;
             Pos := Pos st + 1;
             Line := if Ascii.eqb c newline then incr (Line st) else Line st |} /\
    Eof st = Ret (VNil,
                  Some (trap st1 ("Expected end of file but got '"
                                  ++ fmt_c c ++ "'"))) st1 /\
    forall p2 : Parser, Either Eof p2 st = Eof st.
Proof.
  intros Hpos Hlen.
  destruct (get_at_pos st Hpos) as [c Hc].
  exists c. eexists. split; [exact Hc|]. split; [reflexivity|].
  assert (HE : Eof st = Ret (VNil,
                  Some (trap (consume c st) ("Expected end of file but got '"
                                  ++ fmt_c c ++ "'"))) (consume c st)).
  { unfold Eof. rewrite (next_inside _ st c) by (lia || exact Hc). reflexivity. }
  assert (HP : Pos (consume c st) = Pos st + 1) by (apply consume_Pos; lia).
  assert (Hst : consume c st =
     {| Source := Source st; Pos := Pos st + 1;
        Line := if Ascii.eqb c newline then incr (Line st) else Line st |}).
  { unfold consume in *. simpl in HP. rewrite HP. reflexivity. }
  rewrite <- Hst. split; [exact HE|].
  intros p2. unfold Either. rewrite HE.
  destruct (Z.eqb_spec (Pos (consume c st)) (Pos st)); [lia | reflexivity].
Qed.

(** So [Eol] never gets to [Newline]: on a line feed it fails, one byte
    in and one line down. *)
Lemma Eol_on_line_feed :
  Eol (start (String.String newline EmptyString))
    = Ret (VNil,
           Some (EParse {| Reason := "Expected end of file but got '"
                                     ++ String.String newline "'";
                           ErrLine := 2 |}))
        {| Source := String.String newline EmptyString; Pos := 1; Line := 2 |}.
Proof. reflexivity. Qed.

Lemma Eof_consumes_on_failure_witness :
  exists c st1,
    String.get (Z.to_nat (Pos (start "x"))) (Source (start "x")) = Some c /\
    st1 = {| Source := "x"; Pos := 0 + 1;
             Line := if Ascii.eqb c newline then incr 1 else 1 |} /\
    Eof (start "x") = Ret (VNil,
                  Some (trap st1 ("Expected end of file but got '"
                                  ++ fmt_c c ++ "'"))) st1 /\
    forall p2 : Parser, Either Eof p2 (start "x") = Eof (start "x").
Proof.
  apply (Eof_consumes_on_failure (start "x")).
  - simpl. unfold len. simpl. lia.
  - vm_compute. discriminate.
Defined.

(** ** [String] *)

Lemma bump_in_range (n : nat) : forall z : Z,
  min_int <= z -> z + Z.of_nat n <= max_int -> bump n z = z + Z.of_nat n.
Proof.
  induction n as [|n IH]; intros z Hlo Hhi.
  - simpl. lia.
  - cbn [bump]. rewrite incr_in_range by lia.
    rewrite IH by lia. lia.
Qed.

Lemma substring_zero (s : string) : forall n : nat, substring n 0 s = "".
Proof.
  induction s as [|a s IH]; intros [|n]; simpl; auto.
Qed.

Lemma substring_step (s : string) : forall (n m : nat) (c : ascii),
  String.get n s = Some c ->
  substring n (S m) s = String.String c (substring (S n) m s).
Proof.
  induction s as [|a s IH]; intros n m c Hget.
  - destruct n; discriminate.
  - destruct n as [|n]; simpl in Hget.
    + injection Hget as ->. simpl. destruct m, s; reflexivity.
    + change (substring n (S m) s = String.String c (substring (S n) m s)).
      now apply IH.
Qed.

Lemma substring_none (s : string) : forall n m : nat,
  String.get n s = None -> substring n (S m) s = "".
Proof.
  induction s as [|a s IH]; intros n m Hget.
  - destruct n; reflexivity.
  - destruct n as [|n]; simpl in Hget; [discriminate|].
    simpl. now apply IH.
Qed.

Lemma substring_cons_inv (s : string) (n m : nat) (a : ascii) (t : string) :
  substring n (S m) s = String.String a t ->
  String.get n s = Some a /\ substring (S n) m s = t.
Proof.
  intros H. destruct (String.get n s) as [c|] eqn:Hget.
  - rewrite (substring_step s n m c Hget) in H. injection H as -> ->. auto.
  - rewrite (substring_none s n m Hget) in H. discriminate.
Qed.

Lemma String_loop_spec (cs : string) :
  forall (s : string) (oldPos : Z) (st : ParseState),
  0 <= Pos st -> len (Source st) <= max_int ->
  (substring (Z.to_nat (Pos st)) (String.length cs) (Source st) = cs /\
   String_loop s oldPos cs st =
     Ret (VString s, None)
         {| Source := Source st; Pos := Pos st + len cs;
            Line := bump (count_lf cs) (Line st) |})
  \/
  (substring (Z.to_nat (Pos st)) (String.length cs) (Source st) <> cs /\
   exists L : Z,
     String_loop s oldPos cs st =
       Ret (VNil, Some (EParse {| Reason := "Expected '" ++ s ++ "'";
                                  ErrLine := L |}))
           {| Source := Source st; Pos := oldPos; Line := L |}).
Proof.
  induction cs as [|c cs IH]; intros s oldPos st Hpos Hlen.
  - left. split; [apply substring_zero|].
    simpl. unfold len. simpl. rewrite Z.add_0_r. now destruct st.
  - cbn [String_loop String.length].
    destruct (Z.lt_ge_cases (Pos st) (len (Source st))) as [Hin|Hout].
    + destruct (get_at_pos st (conj Hpos Hin)) as [c' Hc'].
      rewrite (next_inside _ st c' Hpos Hc').
      destruct (Ascii.eqb_spec c' c) as [->|Hne].
      * assert (HP : Pos (consume c st) = Pos st + 1)
          by (apply consume_Pos; lia).
        destruct (IH s oldPos (consume c st)) as [[Hsub Hrun]|[Hsub [L Hrun]]];
          try (rewrite ?HP; simpl; lia).
        -- left. rewrite Hrun, HP.
           rewrite HP, Z2Nat.inj_add in Hsub by lia.
           rewrite Nat.add_comm in Hsub. simpl in Hsub.
           split.
           ++ rewrite (substring_step _ _ _ c Hc'). now rewrite Hsub.
           ++ f_equal. unfold len. simpl String.length.
              rewrite Nat2Z.inj_succ. cbn [count_lf consume Source Line].
              destruct (Ascii.eqb c newline); f_equal; simpl; lia.
        -- right. split.
           ++ rewrite (substring_step _ _ _ c Hc'). intros Heq.
              injection Heq as Heq. apply Hsub.
              rewrite HP, Z2Nat.inj_add by lia.
              rewrite Nat.add_comm. exact Heq.
           ++ exists L. exact Hrun.
      * right. split.
        -- rewrite (substring_step _ _ _ c' Hc'). congruence.
        -- exists (Line st). reflexivity.
    + right. rewrite next_at_end by lia. split.
      * rewrite substring_none; [discriminate|].
        apply get_outside. unfold len in Hout. lia.
      * exists (Line st). reflexivity.
Qed.

(** C6. String atomicity.  From a state within bounds, [String s] either
    succeeds, returning [s] with the position advanced by exactly [len s]
    (the source holds [s] at the cursor), or fails with the position back
    where it was before the call, the reason naming the expected string
    (the source does not hold [s] at the cursor). *)
Theorem String_atomicity (s : string) (st : ParseState) :
  0 <= Pos st -> len (Source st) <= max_int ->
  (exists st',
     String s st = Ret (VString s, None) st' /\
     Pos st' = Pos st + len s /\
     Source st' = Source st /\
     substring (Z.to_nat (Pos st)) (String.length s) (Source st) = s)
  \/
  (exists st',
     String s st = Ret (VNil, Some (trap st' ("Expected '" ++ s ++ "'"))) st' /\
     Pos st' = Pos st /\
     Source st' = Source st /\
     substring (Z.to_nat (Pos st)) (String.length s) (Source st) <> s).
Proof.
  intros Hpos Hlen. unfold String.
  destruct (String_loop_spec s s (Pos st) st Hpos Hlen)
    as [[Hsub Hrun]|[Hsub [L Hrun]]].
  - left. eexists. split; [exact Hrun|]. repeat split. exact Hsub.
  - right. exists {| Source := Source st; Pos := Pos st; Line := L |}.
    split; [exact Hrun|]. repeat split. exact Hsub.
Qed.


Lemma String_atomicity_witness :
  (exists st',
     String "ab" (start "abc") = Ret (VString "ab", None) st' /\
     Pos st' = Pos (start "abc") + len "ab" /\
     Source st' = Source (start "abc") /\
     substring (Z.to_nat (Pos (start "abc"))) (String.length "ab")
       (Source (start "abc")) = "ab")
  \/
  (exists st',
     String "ab" (start "abc")
       = Ret (VNil, Some (trap st' ("Expected '" ++ "ab" ++ "'"))) st' /\
     Pos st' = Pos (start "abc") /\
     Source st' = Source (start "abc") /\
     substring (Z.to_nat (Pos (start "abc"))) (String.length "ab")
       (Source (start "abc")) <> "ab").
Proof.
  apply (String_atomicity "ab" (start "abc")).
  - simpl. lia.
  - vm_compute. discriminate.
Defined.

Lemma String_loop_mismatch (pre : string) :
  forall (s : string) (oldPos : Z) (c : ascii) (rest : string)
         (st : ParseState),
  0 <= Pos st -> len (Source st) <= max_int ->
  substring (Z.to_nat (Pos st)) (String.length pre) (Source st) = pre ->
  String.get (Z.to_nat (Pos st) + String.length pre) (Source st) <> Some c ->
  String_loop s oldPos (pre ++ String.String c rest) st =
    Ret (VNil, Some (EParse {| Reason := "Expected '" ++ s ++ "'";
                               ErrLine := bump (count_lf pre) (Line st) |}))
        {| Source := Source st; Pos := oldPos;
           Line := bump (count_lf pre) (Line st) |}.
Proof.
  induction pre as [|a pre IH]; intros s oldPos c rest st Hpos Hlen Hsub Hget.
  - cbn [append String_loop count_lf bump].
    rewrite Nat.add_0_r in Hget.
    destruct (Z.lt_ge_cases (Pos st) (len (Source st))) as [Hin|Hout].
    + destruct (get_at_pos st (conj Hpos Hin)) as [c' Hc'].
      rewrite (next_inside _ st c' Hpos Hc').
      destruct (Ascii.eqb_spec c' c) as [->|Hne]; [contradiction | reflexivity].
    + rewrite next_at_end by lia. reflexivity.
  - cbn [append String_loop String.length] in *.
    apply substring_cons_inv in Hsub. destruct Hsub as [Ha Hsub].
    rewrite (next_inside _ st a Hpos Ha), Ascii.eqb_refl.
    assert (Hin : Pos st < len (Source st)).
    { destruct (Z.lt_ge_cases (Pos st) (len (Source st))) as [|Hout]; auto.
      rewrite get_outside in Ha; [discriminate | unfold len in Hout; lia]. }
    assert (HP : Pos (consume a st) = Pos st + 1) by (apply consume_Pos; lia).
    assert (HN : Z.to_nat (Pos (consume a st)) = S (Z.to_nat (Pos st))).
    { rewrite HP, Z2Nat.inj_add by lia. simpl. lia. }
    rewrite (IH s oldPos c rest (consume a st)).
    + cbn [count_lf consume Source Line].
      destruct (Ascii.eqb a newline); reflexivity.
    + lia.
    + exact Hlen.
    + rewrite HN. exact Hsub.
    + rewrite HN. cbn [consume Source].
      replace (S (Z.to_nat (Pos st)) + String.length pre)%nat
        with (Z.to_nat (Pos st) + S (String.length pre))%nat by lia.
      exact Hget.
Qed.

(** C7. Rollback restores the position only.  When [p] fails, [Try p]
    returns in the state [p] left with only [Pos] put back: [Line] is what
    [p] made it.  When [String] has matched the prefix [pre] of its
    argument and then meets a mismatch, it returns with [Pos] put back and
    [Line] incremented once per line feed in [pre]; the error carries that
    line.  Short of overflow that is the old line plus the number of line
    feeds, which differs from the old line as soon as there is one. *)
Theorem rollback_keeps_line :
  (forall (p : Parser) (st st1 : ParseState) (x : Value) (e : error),
     p st = Ret (x, Some e) st1 ->
     Try p st = Ret (VNil, Some e)
                  {| Source := Source st1; Pos := Pos st; Line := Line st1 |})
  /\
  (forall (pre : string) (c : ascii) (rest : string) (st : ParseState),
     0 <= Pos st -> len (Source st) <= max_int ->
     substring (Z.to_nat (Pos st)) (String.length pre) (Source st) = pre ->
     String.get (Z.to_nat (Pos st) + String.length pre) (Source st) <> Some c ->
     String (pre ++ String.String c rest) st =
       Ret (VNil,
            Some (EParse {| Reason := "Expected '"
                                      ++ (pre ++ String.String c rest) ++ "'";
                            ErrLine := bump (count_lf pre) (Line st) |}))
           {| Source := Source st; Pos := Pos st;
              Line := bump (count_lf pre) (Line st) |} /\
     (min_int <= Line st ->
      Line st + Z.of_nat (count_lf pre) <= max_int ->
      bump (count_lf pre) (Line st) = Line st + Z.of_nat (count_lf pre) /\
      ((0 < count_lf pre)%nat -> bump (count_lf pre) (Line st) <> Line st))).
Proof.
  split.
  - intros p st st1 x e Hp. unfold Try. rewrite Hp. reflexivity.
  - intros pre c rest st Hpos Hlen Hsub Hget. split.
    + unfold String. now apply String_loop_mismatch.
    + intros Hlo Hhi. rewrite bump_in_range by assumption. split; lia.
Qed.

Lemma rollback_keeps_line_witness :
  Try nl_b (start src_nl_c)
    = Ret (VNil, Some (EParse {| Reason := "Expected 'b'"; ErrLine := 2 |}))
        {| Source := src_nl_c; Pos := 0; Line := 2 |} /\
  String str_a_nl_b (start src_a_nl_c)
    = Ret (VNil,
           Some (EParse {| Reason := "Expected '" ++ str_a_nl_b ++ "'";
                           ErrLine := 2 |}))
        {| Source := src_a_nl_c; Pos := 0; Line := 2 |}.
Proof.
  split.
  - apply (proj1 rollback_keeps_line nl_b (start src_nl_c)
             {| Source := src_nl_c; Pos := 1; Line := 2 |} VNil
             (EParse {| Reason := "Expected 'b'"; ErrLine := 2 |})).
    reflexivity.
  - apply (proj2 rollback_keeps_line
             (String.String "a" (String.String newline "")) "b"%char ""
             (start src_a_nl_c)).
    + simpl. lia.
    + vm_compute. discriminate.
    + reflexivity.
    + simpl. discriminate.
Defined.

(** ** [Many] and [Many1] *)

Lemma Many_unfold (fuel : nat) (p : Parser) :
  Many (S fuel) p = Option (VList []) (Many1 fuel p).
Proof. reflexivity. Qed.

Section ManyLaws.

Variable p : Parser.

(** Whenever [p] fails, it leaves the position where it found it. *)
Hypothesis p_fails_in_place :
  forall st x e st1, p st = Ret (x, Some e) st1 -> Pos st1 = Pos st.

Lemma Many_no_error (fuel : nat) :
  forall st v err st',
  Many fuel p st = Ret (v, err) st' -> err = None /\ exists xs, v = VList xs.
Proof.
  induction fuel as [|fuel IH]; intros st v err st' H.
  - discriminate H.
  - rewrite Many_unfold in H.
    unfold Option, Either, Many1, Bind, Return in H.
    destruct (p st) as [[x [e|]] st1| |] eqn:Hp; try discriminate H.
    + rewrite (p_fails_in_place _ _ _ _ Hp), Z.eqb_refl in H.
      injection H as <- <- <-. eauto.
    + destruct (Many fuel p st1) as [[v1 [e1|]] s2| |] eqn:Hm;
        try discriminate H.
      * apply IH in Hm. destruct Hm as [Hm _]. discriminate Hm.
      * apply IH in Hm. destruct Hm as [_ [l ->]].
        simpl in H. injection H as <- <- <-. eauto.
Qed.

Lemma Many1_error_is_first (fuel : nat) :
  forall st v e st',
  Many1 fuel p st = Ret (v, Some e) st' ->
  exists x, p st = Ret (x, Some e) st'.
Proof.
  intros st v e st' H. unfold Many1, Bind in H.
  destruct (p st) as [[x [e0|]] st1| |] eqn:Hp; try discriminate H.
  - injection H as _ <- <-. eauto.
  - destruct (Many fuel p st1) as [[v1 [e1|]] s2| |] eqn:Hm;
      try discriminate H.
    + apply Many_no_error in Hm. destruct Hm as [Hm _]. discriminate Hm.
    + apply Many_no_error in Hm. destruct Hm as [_ [l ->]].
      discriminate H.
Qed.

Variable Inv : ParseState -> Prop.
Variable size : ParseState -> nat.

(** From a state of [Inv], [p] returns, and a success stays in [Inv] with
    a smaller [size]. *)
Hypothesis p_returns :
  forall st, Inv st ->
  exists x err st1,
    p st = Ret (x, err) st1 /\
    (err = None -> Inv st1 /\ (size st1 < size st)%nat).

Lemma Many_total (fuel : nat) :
  forall st, Inv st -> (size st < fuel)%nat ->
  exists xs st', Many fuel p st = Ret (VList xs, None) st'.
Proof.
  induction fuel as [|fuel IH]; intros st HI Hsz; [lia|].
  rewrite Many_unfold. unfold Option, Either, Many1, Bind, Return.
  destruct (p_returns st HI) as [x [[e|] [st1 [Hp Hok]]]]; rewrite Hp.
  - rewrite (p_fails_in_place _ _ _ _ Hp), Z.eqb_refl. eauto.
  - destruct (Hok eq_refl) as [HI1 Hlt].
    destruct (IH st1 HI1) as [xs [st' Hm]]; [lia|].
    rewrite Hm. simpl. eauto.
Qed.

Lemma Many1_total (fuel : nat) :
  forall st x st1, Inv st -> p st = Ret (x, None) st1 ->
  (size st1 < fuel)%nat ->
  exists xs st', Many1 fuel p st = Ret (VList (x :: xs), None) st'.
Proof.
  intros st x st1 HI Hp Hsz. unfold Many1, Bind. rewrite Hp.
  destruct (p_returns st HI) as [x' [err [st1' [Hp' Hok]]]].
  rewrite Hp in Hp'. injection Hp' as <- <- <-.
  destruct (Hok eq_refl) as [HI1 _].
  destruct (Many_total fuel st1 HI1 Hsz) as [xs [st' Hm]].
  rewrite Hm. unfold tail, Return. eauto.
Qed.

End ManyLaws.

Lemma Many_empty (p : Parser) (fuel : nat) (st st1 : ParseState)
  (x : Value) (e : error) :
  p st = Ret (x, Some e) st1 -> Pos st1 = Pos st ->
  Many (S fuel) p st = Ret (VList [], None) st1.
Proof.
  intros Hp Hpos. rewrite Many_unfold.
  unfold Option, Either, Many1, Bind, Return.
  rewrite Hp, Hpos, Z.eqb_refl. reflexivity.
Qed.

Lemma Many1_first_fails (p : Parser) (fuel : nat) (st st1 : ParseState)
  (x : Value) (e : error) :
  p st = Ret (x, Some e) st1 -> Many1 fuel p st = Ret (VNil, Some e) st1.
Proof.
  intros Hp. unfold Many1, Bind. rewrite Hp. reflexivity.
Qed.

Lemma Many_propagates (p : Parser) (fuel : nat) (st st1 : ParseState)
  (x : Value) (e : error) :
  p st = Ret (x, Some e) st1 -> Pos st1 <> Pos st ->
  Many (S fuel) p st = Ret (VNil, Some e) st1.
Proof.
  intros Hp Hpos. rewrite Many_unfold.
  unfold Option, Either, Many1, Bind. rewrite Hp.
  destruct (Z.eqb_spec (Pos st1) (Pos st)); [contradiction | reflexivity].
Qed.

(** A parser that succeeds without consuming makes [Many] recurse without
    end. *)
Lemma Many_of_Return_diverges (x : Value) (fuel : nat) :
  forall st, Many fuel (Return x) st = Diverge.
Proof.
  induction fuel as [|fuel IH]; intros st; [reflexivity|].
  rewrite Many_unfold. unfold Option, Either, Many1, Bind.
  unfold Return at 1. now rewrite IH.
Qed.

(** C3, refuted as stated: [Many p] can return an error.  On the source
    [ac], the parser [ab] fails after reading [a]; [Many ab] returns that
    error, and no amount of fuel makes it succeed. *)
Lemma Many_can_fail :
  Many 1 ab (start "ac")
    = Ret (VNil, Some (EParse {| Reason := "Expected 'b'"; ErrLine := 1 |}))
        {| Source := "ac"; Pos := 1; Line := 1 |} /\
  ~ (forall (p : Parser) (st : ParseState),
       exists fuel xs st', Many fuel p st = Ret (VList xs, None) st').
Proof.
  split; [reflexivity|].
  intros H. destruct (H ab (start "ac")) as [fuel [xs [st' Hm]]].
  destruct fuel as [|fuel]; [discriminate Hm|].
  rewrite (Many_propagates ab fuel (start "ac")
             {| Source := "ac"; Pos := 1; Line := 1 |} VNil
             (EParse {| Reason := "Expected 'b'"; ErrLine := 1 |})) in Hm.
  - discriminate Hm.
  - reflexivity.
  - simpl. lia.
Qed.

(** C3, amended.  If the first [p] fails with the position unchanged, [Many
    p] succeeds with the empty sequence; if it fails with the position
    changed, [Many p] returns that error.  For a [p] whose failures always
    leave the position unchanged, [Many p] never returns an error, and it
    does succeed, given fuel beyond the measure, from every state of an
    invariant from which [p] returns and which [p]'s successes preserve while
    decreasing the measure. *)
Theorem Many_law (p : Parser) :
  (forall fuel st x e st1,
     p st = Ret (x, Some e) st1 -> Pos st1 = Pos st ->
     Many (S fuel) p st = Ret (VList [], None) st1) /\
  (forall fuel st x e st1,
     p st = Ret (x, Some e) st1 -> Pos st1 <> Pos st ->
     Many (S fuel) p st = Ret (VNil, Some e) st1) /\
  ((forall st x e st1, p st = Ret (x, Some e) st1 -> Pos st1 = Pos st) ->
   (forall fuel st v err st',
      Many fuel p st = Ret (v, err) st' -> err = None) /\
   (forall (Inv : ParseState -> Prop) (size : ParseState -> nat),
      (forall st, Inv st ->
         exists x err st1,
           p st = Ret (x, err) st1 /\
           (err = None -> Inv st1 /\ (size st1 < size st)%nat)) ->
      forall st fuel, Inv st -> (size st < fuel)%nat ->
      exists xs st', Many fuel p st = Ret (VList xs, None) st')).
Proof.
  split; [|split].
  - intros fuel st x e st1. apply Many_empty.
  - intros fuel st x e st1. apply Many_propagates.
  - intros Hfail. split.
    + intros fuel st v err st' H.
      now destruct (Many_no_error p Hfail fuel st v err st' H).
    + intros Inv size Hret st fuel HI Hsz.
      now apply (Many_total p Hfail Inv size Hret).
Qed.

Lemma Many_law_witness :
  Many 1 Digit (start "x")
    = Ret (VList [], None) (start "x") /\
  Many 1 ab (start "ac")
    = Ret (VNil, Some (EParse {| Reason := "Expected 'b'"; ErrLine := 1 |}))
        {| Source := "ac"; Pos := 1; Line := 1 |} /\
  exists xs st', Many 4 Digit (start "12a") = Ret (VList xs, None) st'.
Proof.
  split; [|split].
  - apply (proj1 (Many_law Digit) 0%nat (start "x") VNil
             (EParse {| Reason := "Expected one of '0123456789' but got 'x'";
                        ErrLine := 1 |}) (start "x")); reflexivity.
  - apply (proj1 (proj2 (Many_law ab)) 0%nat (start "ac") VNil
             (EParse {| Reason := "Expected 'b'"; ErrLine := 1 |})
             {| Source := "ac"; Pos := 1; Line := 1 |});
      [reflexivity | simpl; lia].
  - apply (proj2 (proj2 (Many_law Digit))
             (fun st x e st1 => OneOf_fails_in_place "0123456789" st st1 x e))
      with (Inv := in_bounds) (size := remaining).
    + exact (OneOf_returns "0123456789").
    + split; [simpl; lia | vm_compute; discriminate].
    + vm_compute. lia.
Defined.

(** The parsers of the package only move the cursor forwards. *)

Lemma next_forward (pred : ascii -> bool) (st st1 : ParseState)
  (c : ascii) (ok : bool) :
  in_bounds st -> next pred st = Ret (c, ok) st1 ->
  in_bounds st1 /\ Pos st <= Pos st1.
Proof.
  intros [Hpos Hlen] H.
  destruct (next_cases pred st) as [Hn|[[c' Hn]|[c' [Hin Hn]]]];
    rewrite Hn in H; try discriminate H.
  - injection H as _ _ <-. unfold in_bounds. lia.
  - injection H as _ _ <-.
    assert (HP : Pos (consume c' st) = Pos st + 1) by (apply consume_Pos; lia).
    unfold in_bounds. rewrite HP. cbn [consume Source]. lia.
Qed.

Lemma Char_forward (c : ascii) : forward (Char c).
Proof.
  intros st x err st1 Hb H. unfold Char in H.
  destruct (next (fun b => Ascii.eqb b c) st) as [[b ok] s| |] eqn:Hn;
    try discriminate H.
  apply next_forward in Hn; [|exact Hb].
  destruct ok; injection H as _ _ <-; exact Hn.
Qed.

Lemma OneOf_forward (set : string) : forward (OneOf set).
Proof.
  intros st x err st1 Hb H. unfold OneOf in H.
  destruct (next (fun c => IndexByte set c >=? 0) st) as [[b ok] s| |] eqn:Hn;
    try discriminate H.
  apply next_forward in Hn; [|exact Hb].
  destruct ok; injection H as _ _ <-; exact Hn.
Qed.

Lemma Bind__forward (p1 p2 : Parser) :
  forward p1 -> forward p2 -> forward (Bind_ p1 p2).
Proof.
  intros H1 H2 st x err st2 Hb H. unfold Bind_ in H.
  destruct (p1 st) as [[y [e|]] st1| |] eqn:Hp1; try discriminate H.
  - injection H as _ <- <-. exact (H1 _ _ _ _ Hb Hp1).
  - destruct (H1 _ _ _ _ Hb Hp1) as [Hb1 Hle].
    destruct (H2 _ _ _ _ Hb1 H) as [Hb2 Hle2]. split; [exact Hb2 | lia].
Qed.

Lemma many_run_forward (q : Parser) (st s : ParseState) (xs : list Value) :
  forward q -> in_bounds st -> many_run q st xs s ->
  in_bounds s /\ Pos st <= Pos s.
Proof.
  intros Hf Hb Hrun. induction Hrun as [st|st st1 st2 x xs Hq Hrun IH].
  - split; [assumption | lia].
  - destruct (Hf _ _ _ _ Hb Hq) as [Hb1 Hle].
    destruct (IH Hb1) as [Hb2 Hle2]. split; [assumption | lia].
Qed.

Lemma Many_run_error (q : Parser) (st s_last st' : ParseState)
  (xs : list Value) (y : Value) (e : error) :
  forward q -> in_bounds st ->
  many_run q st xs s_last ->
  q s_last = Ret (y, Some e) st' -> Pos st' <> Pos s_last ->
  forall fuel, (List.length xs < fuel)%nat ->
  Many fuel q st = Ret (VNil, Some e) st'.
Proof.
  intros Hf Hb Hrun Hlast Hpos.
  induction Hrun as [st|st st1 st2 x xs Hq Hrun IH]; intros fuel Hfuel.
  - destruct fuel as [|fuel]; [simpl in Hfuel; lia|].
    now apply (Many_propagates q fuel st st' y e).
  - destruct fuel as [|fuel]; [simpl in Hfuel; lia|].
    destruct (Hf _ _ _ _ Hb Hq) as [Hb1 Hle].
    destruct (many_run_forward q st1 st2 xs Hf Hb1 Hrun) as [Hb2 Hle2].
    destruct (Hf _ _ _ _ Hb2 Hlast) as [_ Hle3].
    rewrite Many_unfold. unfold Option, Either, Many1, Bind.
    rewrite Hq, (IH Hb1 Hlast Hpos fuel) by (simpl in Hfuel; lia).
    destruct (Z.eqb_spec (Pos st') (Pos st)); [lia | reflexivity].
Qed.

(** An error of [Many] is the error of an application of [p] that moved the
    cursor, after a run of successes. *)
Lemma Many_error_inv (q : Parser) (fuel : nat) :
  forall st v e st',
  Many fuel q st = Ret (v, Some e) st' ->
  exists xs s_last y,
    many_run q st xs s_last /\
    q s_last = Ret (y, Some e) st' /\ Pos st' <> Pos s_last.
Proof.
  induction fuel as [|fuel IH]; intros st v e st' H; [discriminate H|].
  rewrite Many_unfold in H.
  unfold Option, Either, Many1, Bind, Return in H.
  destruct (q st) as [[x [e0|]] st1| |] eqn:Hq; try discriminate H.
  - destruct (Z.eqb_spec (Pos st1) (Pos st)) as [|Hne]; [discriminate H|].
    injection H as _ <- <-. exists [], st, x.
    split; [constructor | split; assumption].
  - destruct (Many fuel q st1) as [[v1 [e1|]] s2| |] eqn:Hm;
      try discriminate H.
    + destruct (Z.eqb_spec (Pos s2) (Pos st)); [discriminate H|].
      injection H as _ <- <-.
      destruct (IH _ _ _ _ Hm) as [xs [s_last [y [Hrun [Hlast Hpos]]]]].
      exists (x :: xs), s_last, y.
      split; [econstructor; eassumption | split; assumption].
    + destruct v1; discriminate H.
Qed.

(** C4, refuted as stated: [Many1 p] can fail though the first [p]
    succeeds.  On the source [abac] the first [ab] succeeds, the second one
    fails after reading [a], and [Many1 ab] returns that error at position
    3. *)
Lemma Many1_can_fail_later :
  ab (start "abac")
    = Ret (VByte "b", None) {| Source := "abac"; Pos := 2; Line := 1 |} /\
  Many1 1 ab (start "abac")
    = Ret (VNil, Some (EParse {| Reason := "Expected 'b'"; ErrLine := 1 |}))
        {| Source := "abac"; Pos := 3; Line := 1 |} /\
  ~ (forall (p : Parser) (st : ParseState),
       (exists fuel v e st', Many1 fuel p st = Ret (v, Some e) st') <->
       (exists x e st1, p st = Ret (x, Some e) st1)).
Proof.
  split; [reflexivity|]. split; [reflexivity|].
  intros H. destruct (H ab (start "abac")) as [H1 _].
  destruct H1 as [x [e [st1 Hp]]].
  - exists 1%nat. do 3 eexists. reflexivity.
  - discriminate Hp.
Qed.

(** C4, amended.  If the first [p] fails, [Many1 p] fails with [p]'s error
    in the state [p] left: what [p] consumed stays consumed.  An error of
    [Many1 p] is either that, or the error of a later application of [p]
    that moved the cursor, reached after the first [p] and a run of further
    ones succeeded.  For a [p] that never moves the cursor backwards, from a
    state within bounds, such a later failure does make [Many1 p] fail.  For
    a [p] whose failures always leave the position unchanged, an error of
    [Many1 p] is the error of the first [p]; and when the first [p]
    succeeds with [x], [Many1 p] succeeds with a sequence headed by [x],
    under the same termination conditions as for [Many]. *)
Theorem Many1_law (p : Parser) :
  (forall fuel st x e st1,
     p st = Ret (x, Some e) st1 ->
     Many1 fuel p st = Ret (VNil, Some e) st1) /\
  ((forall st x e st1, p st = Ret (x, Some e) st1 -> Pos st1 = Pos st) ->
   (forall fuel st v e st',
      Many1 fuel p st = Ret (v, Some e) st' ->
      exists x, p st = Ret (x, Some e) st') /\
   (forall (Inv : ParseState -> Prop) (size : ParseState -> nat),
      (forall st, Inv st ->
         exists x err st1,
           p st = Ret (x, err) st1 /\
           (err = None -> Inv st1 /\ (size st1 < size st)%nat)) ->
      forall fuel st x st1,
      Inv st -> p st = Ret (x, None) st1 -> (size st1 < fuel)%nat ->
      exists xs st', Many1 fuel p st = Ret (VList (x :: xs), None) st')) /\
  (forall fuel st v e st',
     Many1 fuel p st = Ret (v, Some e) st' ->
     (exists x, p st = Ret (x, Some e) st') \/
     (exists x s1 xs s_last y,
        p st = Ret (x, None) s1 /\
        many_run p s1 xs s_last /\
        p s_last = Ret (y, Some e) st' /\ Pos st' <> Pos s_last)) /\
  (forward p ->
   forall fuel st s1 s_last st' x y xs e,
     in_bounds st ->
     p st = Ret (x, None) s1 ->
     many_run p s1 xs s_last ->
     p s_last = Ret (y, Some e) st' -> Pos st' <> Pos s_last ->
     (List.length xs < fuel)%nat ->
     Many1 fuel p st = Ret (VNil, Some e) st').
Proof.
  split; [|split; [|split]].
  - intros fuel st x e st1. apply Many1_first_fails.
  - intros Hfail. split.
    + intros fuel. apply (Many1_error_is_first p Hfail).
    + intros Inv size Hret fuel st x st1.
      apply (Many1_total p Hfail Inv size Hret).
  - intros fuel st v e st' H. unfold Many1, Bind in H.
    destruct (p st) as [[x [e0|]] s1| |] eqn:Hp; try discriminate H.
    + injection H as _ <- <-. left. eauto.
    + destruct (Many fuel p s1) as [[v1 [e1|]] s2| |] eqn:Hm;
        try discriminate H.
      * injection H as _ <- <-.
        destruct (Many_error_inv _ _ _ _ _ _ Hm)
          as [xs [s_last [y [Hrun [Hlast Hpos]]]]].
        right. exists x, s1, xs, s_last, y. auto.
      * destruct v1; discriminate H.
  - intros Hf fuel st s1 s_last st' x y xs e Hb Hp Hrun Hlast Hpos Hfuel.
    destruct (Hf _ _ _ _ Hb Hp) as [Hb1 _].
    unfold Many1, Bind. rewrite Hp.
    now rewrite (Many_run_error p s1 s_last st' xs y e Hf Hb1 Hrun Hlast
                   Hpos fuel Hfuel).
Qed.

Lemma Many1_law_witness :
  Many1 3 Digit (start "")
    = Ret (VNil,
           Some (EParse {| Reason := "Expected one of '0123456789' but got '"
                                     ++ fmt_c zero ++ "'";
                           ErrLine := 1 |}))
        (start "") /\
  (exists xs st',
     Many1 3 Digit (start "12a") = Ret (VList (VByte "1" :: xs), None) st') /\
  Many1 1 ab (start "abac")
    = Ret (VNil, Some (EParse {| Reason := "Expected 'b'"; ErrLine := 1 |}))
        {| Source := "abac"; Pos := 3; Line := 1 |}.
Proof.
  split; [|split].
  - apply (proj1 (Many1_law Digit) 3%nat (start "") VNil); reflexivity.
  - apply (proj2 (proj1 (proj2 (Many1_law Digit))
             (fun st x e st1 => OneOf_fails_in_place "0123456789" st st1 x e))
             in_bounds remaining (OneOf_returns "0123456789")
             3%nat (start "12a") (VByte "1")
             {| Source := "12a"; Pos := 1; Line := 1 |}).
    + split; [simpl; lia | vm_compute; discriminate].
    + reflexivity.
    + vm_compute. lia.
  - apply (proj2 (proj2 (proj2 (Many1_law ab)))
             (Bind__forward _ _ (Char_forward "a") (Char_forward "b"))
             1%nat (start "abac")
             {| Source := "abac"; Pos := 2; Line := 1 |}
             {| Source := "abac"; Pos := 2; Line := 1 |}
             {| Source := "abac"; Pos := 3; Line := 1 |}
             (VByte "b") VNil []).
    + split; [simpl; lia | vm_compute; discriminate].
    + reflexivity.
    + constructor.
    + reflexivity.
    + simpl. lia.
    + simpl. lia.
Defined.

(** ** [SepBy1] *)

Lemma Many_success_inv (q : Parser) (fuel : nat) :
  forall st v st',
  Many fuel q st = Ret (v, None) st' ->
  exists xs s_last,
    v = VList xs /\ many_run q st xs s_last /\ Pos st' = Pos s_last.
Proof.
  induction fuel as [|fuel IH]; intros st v st' H; [discriminate H|].
  rewrite Many_unfold in H.
  unfold Option, Either, Many1, Bind, Return in H.
  destruct (q st) as [[x [e|]] st1| |] eqn:Hq; try discriminate H.
  - destruct (Z.eqb_spec (Pos st1) (Pos st)) as [Heq|]; [|discriminate H].
    injection H as <- <-. exists [], st. repeat split; [constructor | exact Heq].
  - destruct (Many fuel q st1) as [[v1 [e1|]] s2| |] eqn:Hm; try discriminate H.
    + destruct (Z.eqb_spec (Pos s2) (Pos st)) as [Heq|]; [|discriminate H].
      injection H as <- <-. exists [], st.
      repeat split; [constructor | exact Heq].
    + destruct (IH _ _ _ Hm) as [xs [s_last [-> [Hrun Hpos]]]].
      simpl in H. injection H as <- <-.
      exists (x :: xs), s_last. repeat split; [|exact Hpos].
      econstructor; eassumption.
Qed.

Lemma Bind__success_inv (p1 p2 : Parser) (st st2 : ParseState) (x : Value) :
  Bind_ p1 p2 st = Ret (x, None) st2 ->
  exists y st1, p1 st = Ret (y, None) st1 /\ p2 st1 = Ret (x, None) st2.
Proof.
  unfold Bind_. intros H.
  destruct (p1 st) as [[y [e|]] st1| |]; try discriminate H. eauto.
Qed.

Lemma many_run_sep_run (p sep : Parser) (st st' : ParseState)
  (xs : list Value) :
  many_run (Bind_ sep p) st xs st' ->
  exists seps, sep_run p sep st seps xs st' /\ List.length seps = List.length xs.
Proof.
  induction 1 as [st|st st1 st2 x xs Hq _ [seps [IH Hlen]]].
  - exists []. split; [constructor | reflexivity].
  - apply Bind__success_inv in Hq. destruct Hq as [y [s1 [Hsep Hp]]].
    exists (y :: seps). split; [|simpl; congruence].
    econstructor; eassumption.
Qed.

Section ForwardMany.

Variable q : Parser.
Hypothesis q_forward : forward q.

Lemma Many_error_advances (fuel : nat) :
  forall st v e st',
  in_bounds st ->
  Many fuel q st = Ret (v, Some e) st' -> Pos st < Pos st'.
Proof.
  induction fuel as [|fuel IH]; intros st v e st' Hb H; [discriminate H|].
  rewrite Many_unfold in H.
  unfold Option, Either, Many1, Bind, Return in H.
  destruct (q st) as [[x [e0|]] st1| |] eqn:Hq; try discriminate H.
  - destruct (Z.eqb_spec (Pos st1) (Pos st)); [discriminate H|].
    injection H as _ _ <-. apply q_forward in Hq; [lia | exact Hb].
  - apply q_forward in Hq; [|exact Hb]. destruct Hq as [Hb1 Hle].
    destruct (Many fuel q st1) as [[v1 [e1|]] s2| |] eqn:Hm;
      try discriminate H.
    + apply IH in Hm; [|exact Hb1].
      destruct (Z.eqb_spec (Pos s2) (Pos st)); [lia|].
      injection H as _ _ <-. lia.
    + destruct v1; discriminate H.
Qed.

Lemma Many_stops_at_failure (fuel : nat) :
  forall st v st',
  in_bounds st ->
  Many fuel q st = Ret (v, None) st' ->
  exists xs s_last y e,
    v = VList xs /\ many_run q st xs s_last /\
    q s_last = Ret (y, Some e) st' /\ Pos st' = Pos s_last.
Proof.
  induction fuel as [|fuel IH]; intros st v st' Hb H; [discriminate H|].
  rewrite Many_unfold in H.
  unfold Option, Either, Many1, Bind, Return in H.
  destruct (q st) as [[x [e|]] st1| |] eqn:Hq; try discriminate H.
  - destruct (Z.eqb_spec (Pos st1) (Pos st)) as [Heq|]; [|discriminate H].
    injection H as <- <-. exists [], st, x, e.
    repeat split; [constructor | exact Hq | exact Heq].
  - destruct (q_forward _ _ _ _ Hb Hq) as [Hb1 Hle].
    destruct (Many fuel q st1) as [[v1 [e1|]] s2| |] eqn:Hm;
      try discriminate H.
    + apply Many_error_advances in Hm; [|exact Hb1].
      destruct (Z.eqb_spec (Pos s2) (Pos st)); [lia | discriminate H].
    + destruct (IH _ _ _ Hb1 Hm)
        as [xs [s_last [y [e [-> [Hrun [Hlast Hpos]]]]]]].
      simpl in H. injection H as <- <-.
      exists (x :: xs), s_last, y, e. repeat split; auto.
      econstructor; eassumption.
Qed.

End ForwardMany.

Lemma SepBy1_trailing_attempt (fuel : nat) (p sep : Parser)
  (st st' : ParseState) (v : Value) :
  forward p -> forward sep -> in_bounds st ->
  SepBy1 fuel p sep st = Ret (v, None) st' ->
  exists x s1 seps xs s_last y e,
    p st = Ret (x, None) s1 /\
    sep_run p sep s1 seps xs s_last /\
    v = VList (x :: xs) /\
    List.length seps = (List.length (x :: xs) - 1)%nat /\
    Bind_ sep p s_last = Ret (y, Some e) st' /\
    Pos st' = Pos s_last.
Proof.
  intros Hp Hsep Hb H. unfold SepBy1, Bind in H.
  destruct (p st) as [[x [e|]] s1| |] eqn:Hpst; try discriminate H.
  destruct (Hp _ _ _ _ Hb Hpst) as [Hb1 _].
  destruct (Many fuel (Bind_ sep p) s1) as [[v1 [e1|]] s2| |] eqn:Hm;
    try discriminate H.
  destruct (Many_stops_at_failure _ (Bind__forward _ _ Hsep Hp) _ _ _ _ Hb1 Hm)
    as [xs [s_last [y [e [-> [Hrun [Hlast Hpos]]]]]]].
  simpl in H. injection H as <- <-.
  destruct (many_run_sep_run _ _ _ _ _ Hrun) as [seps [Hs Hlen]].
  exists x, s1, seps, xs, s_last, y, e. repeat split; auto. simpl. lia.
Qed.

(** C9. SepBy law.  When [SepBy1 p sep] succeeds, its value is a sequence
    [x :: xs] such that [p] succeeded with [x] and then [sep] and [p]
    succeeded alternately, one separator before each element of [xs]: the
    separators matched between the elements number one less than the
    elements.  The cursor is left at the position reached after the last
    element, so no separator after it is consumed.  For parsers that only
    move the cursor forwards, from a state within bounds, the state returned
    is the one left by the single attempt at [sep] then [p] that failed
    after the last element.  On [1,2,3], digits separated by commas give the
    three digits, with the cursor at 5. *)
Theorem SepBy1_law :
  (forall (fuel : nat) (p sep : Parser) (st st' : ParseState) (v : Value),
     SepBy1 fuel p sep st = Ret (v, None) st' ->
     exists x s1 seps xs s_last,
       p st = Ret (x, None) s1 /\
       sep_run p sep s1 seps xs s_last /\
       v = VList (x :: xs) /\
       List.length seps = (List.length (x :: xs) - 1)%nat /\
       Pos st' = Pos s_last) /\
  (forall (fuel : nat) (p sep : Parser) (st st' : ParseState) (v : Value),
     forward p -> forward sep -> in_bounds st ->
     SepBy1 fuel p sep st = Ret (v, None) st' ->
     exists x s1 seps xs s_last y e,
       p st = Ret (x, None) s1 /\
       sep_run p sep s1 seps xs s_last /\
       v = VList (x :: xs) /\
       List.length seps = (List.length (x :: xs) - 1)%nat /\
       Bind_ sep p s_last = Ret (y, Some e) st' /\
       Pos st' = Pos s_last) /\
  (forall n : nat,
     SepBy1 (3 + n) Digit (Char ",") (start "1,2,3")
       = Ret (VList [VByte "1"; VByte "2"; VByte "3"], None)
           {| Source := "1,2,3"; Pos := 5; Line := 1 |}).
Proof.
  split; [|split].
  - intros fuel p sep st st' v H. unfold SepBy1, Bind in H.
    destruct (p st) as [[x [e|]] s1| |] eqn:Hp; try discriminate H.
    destruct (Many fuel (Bind_ sep p) s1) as [[v1 [e1|]] s2| |] eqn:Hm;
      try discriminate H.
    destruct (Many_success_inv _ _ _ _ _ Hm) as [xs [s_last [-> [Hrun Hpos]]]].
    simpl in H. injection H as <- <-.
    destruct (many_run_sep_run _ _ _ _ _ Hrun) as [seps [Hsep Hlen]].
    exists x, s1, seps, xs, s_last.
    repeat split; auto. simpl. lia.
  - intros fuel p sep st st' v. apply SepBy1_trailing_attempt.
  - intros n. reflexivity.
Qed.

Lemma SepBy1_law_witness :
  (exists x s1 seps xs s_last,
     Digit (start "1,2,3") = Ret (x, None) s1 /\
     sep_run Digit (Char ",") s1 seps xs s_last /\
     VList [VByte "1"; VByte "2"; VByte "3"] = VList (x :: xs) /\
     List.length seps = (List.length (x :: xs) - 1)%nat /\
     Pos {| Source := "1,2,3"; Pos := 5; Line := 1 |} = Pos s_last) /\
  (exists x s1 seps xs s_last y e,
     Digit (start "1,2,3") = Ret (x, None) s1 /\
     sep_run Digit (Char ",") s1 seps xs s_last /\
     VList [VByte "1"; VByte "2"; VByte "3"] = VList (x :: xs) /\
     List.length seps = (List.length (x :: xs) - 1)%nat /\
     Bind_ (Char ",") Digit s_last
       = Ret (y, Some e) {| Source := "1,2,3"; Pos := 5; Line := 1 |} /\
     Pos {| Source := "1,2,3"; Pos := 5; Line := 1 |} = Pos s_last).
Proof.
  split.
  - apply (proj1 SepBy1_law 3%nat Digit (Char ",") (start "1,2,3")).
    reflexivity.
  - apply (proj1 (proj2 SepBy1_law) 3%nat Digit (Char ",") (start "1,2,3")).
    + apply OneOf_forward.
    + apply Char_forward.
    + split; [simpl; lia | vm_compute; discriminate].
    + reflexivity.
Defined.

(** ** [ManyTil] *)

(** C8. On [abcSTOP] from position 0, [ManyTil AnyChar (String STOP)]
    succeeds with the bytes [a], [b], [c] and leaves the cursor at 7, past
    the terminator.  Four nested calls are enough, and more change nothing. *)
Theorem ManyTil_stop_example (n : nat) :
  ManyTil (4 + n) AnyChar (String "STOP") (start "abcSTOP")
    = Ret (VList [VByte "a"; VByte "b"; VByte "c"], None)
        {| Source := "abcSTOP"; Pos := 7; Line := 1 |}.
Proof. reflexivity. Qed.

(** * Further properties

    ** One-byte matchers *)

Lemma peek_None (st : ParseState) :
  0 <= Pos st -> peek st = None -> len (Source st) <= Pos st.
Proof.
  intros Hpos Hp.
  destruct (Z.lt_ge_cases (Pos st) (len (Source st))) as [Hin|]; [|assumption].
  destruct (get_at_pos st (conj Hpos Hin)) as [c Hc].
  unfold peek in Hp. congruence.
Qed.

Lemma peek_Some (st : ParseState) (c : ascii) :
  0 <= Pos st -> peek st = Some c -> Pos st < len (Source st).
Proof.
  intros Hpos Hp.
  destruct (Z.lt_ge_cases (Pos st) (len (Source st))) as [|Hout]; [assumption|].
  unfold peek in Hp. rewrite get_outside in Hp; [discriminate|].
  unfold len in Hout. lia.
Qed.

Lemma next_in_bounds (pred : ascii -> bool) (st : ParseState) :
  in_bounds st ->
  next pred st =
    match peek st with
    | Some c => if pred c then Ret (c, true) (consume c st)
                else Ret (c, false) st
    | None => Ret (zero, false) st
    end.
Proof.
  intros [Hpos Hlen]. destruct (peek st) as [c|] eqn:Hp.
  - now apply next_inside.
  - apply next_at_end. now apply peek_None.
Qed.

Lemma AnyChar_matcher : matcher (fun _ => true) AnyChar.
Proof.
  intros st Hb. unfold AnyChar. rewrite next_in_bounds by assumption.
  destruct (peek st); eauto.
Qed.

Lemma Char_matcher (c : ascii) : matcher (fun b => Ascii.eqb b c) (Char c).
Proof.
  intros st Hb. unfold Char. rewrite next_in_bounds by assumption.
  destruct (peek st) as [b|]; [destruct (Ascii.eqb b c)|]; eauto.
Qed.

Lemma OneOf_matcher (set : string) :
  matcher (fun c => IndexByte set c >=? 0) (OneOf set).
Proof.
  intros st Hb. unfold OneOf. rewrite next_in_bounds by assumption.
  destruct (peek st) as [b|]; [destruct (IndexByte set b >=? 0)|]; eauto.
Qed.

Lemma NoneOf_matcher (set : string) :
  matcher (fun c => IndexByte set c <? 0) (NoneOf set).
Proof.
  intros st Hb. unfold NoneOf. rewrite next_in_bounds by assumption.
  destruct (peek st) as [b|]; [destruct (IndexByte set b <? 0)|]; eauto.
Qed.

Lemma consume_after (c : ascii) (st : ParseState) :
  in_bounds st -> peek st = Some c ->
  consume c st = after (String.String c EmptyString) st.
Proof.
  intros [Hpos Hlen] Hp. pose proof (peek_Some st c Hpos Hp) as Hin.
  unfold consume, after. cbn [count_lf bump]. f_equal.
  - rewrite incr_in_range by (unfold min_int, max_int in *; lia).
    unfold len. simpl. lia.
  - destruct (Ascii.eqb c newline); reflexivity.
Qed.

Lemma consume_in_bounds (c : ascii) (st : ParseState) :
  in_bounds st -> peek st = Some c ->
  in_bounds (consume c st) /\ remaining st = S (remaining (consume c st)).
Proof.
  intros Hb Hp. rewrite (consume_after c st Hb Hp).
  destruct Hb as [Hpos Hlen]. pose proof (peek_Some st c Hpos Hp) as Hin.
  unfold in_bounds, remaining, after, len in *. simpl. split; lia.
Qed.

Lemma rest_step (c : ascii) (st : ParseState) :
  in_bounds st -> peek st = Some c ->
  rest st = String.String c (rest (consume c st)).
Proof.
  intros Hb Hp. destruct (consume_in_bounds c st Hb Hp) as [_ Hrem].
  destruct Hb as [Hpos Hlen]. pose proof (peek_Some st c Hpos Hp) as Hin.
  assert (HP : Pos (consume c st) = Pos st + 1) by (apply consume_Pos; lia).
  unfold rest. rewrite Hrem, (substring_step _ _ _ c Hp), HP.
  change (Source (consume c st)) with (Source st).
  replace (Z.to_nat (Pos st + 1)) with (S (Z.to_nat (Pos st))) by lia.
  reflexivity.
Qed.

Lemma rest_end (st : ParseState) :
  0 <= Pos st -> peek st = None -> rest st = EmptyString.
Proof.
  intros Hpos Hp. pose proof (peek_None st Hpos Hp) as Hout.
  unfold rest, remaining.
  replace (Z.to_nat (len (Source st) - Pos st)) with O by lia.
  apply substring_zero.
Qed.

Lemma bump_count_lf_app (s t : string) : forall z : Z,
  bump (count_lf t) (bump (count_lf s) z) = bump (count_lf (s ++ t)) z.
Proof.
  induction s as [|a s IH]; intros z; [reflexivity|].
  cbn [append count_lf]. destruct (Ascii.eqb a newline); cbn [bump]; apply IH.
Qed.

Lemma len_app (s t : string) : len (s ++ t) = len s + len t.
Proof.
  unfold len. induction s as [|a s IH]; [reflexivity|].
  cbn [append String.length]. lia.
Qed.

Lemma after_after (s t : string) (st : ParseState) :
  after t (after s st) = after (s ++ t) st.
Proof.
  unfold after. cbn [Source Pos Line]. f_equal.
  - rewrite len_app. lia.
  - apply bump_count_lf_app.
Qed.

Lemma after_empty (st : ParseState) : after EmptyString st = st.
Proof.
  unfold after. cbn [count_lf bump]. unfold len. simpl.
  rewrite Z.add_0_r. now destruct st.
Qed.

(** [Many] of a one-byte matcher takes the longest run of matching bytes. *)
Lemma Many_span (pred : ascii -> bool) (p : Parser) :
  matcher pred p ->
  forall (fuel : nat) (st : ParseState),
  in_bounds st -> (String.length (span pred (rest st)) < fuel)%nat ->
  Many fuel p st =
    Ret (VList (bytes (span pred (rest st))), None)
        (after (span pred (rest st)) st).
Proof.
  intros Hm fuel. induction fuel as [|fuel IH]; intros st Hb Hfuel; [lia|].
  rewrite Many_unfold. unfold Option, Either, Many1, Bind, Return.
  pose proof (Hm st Hb) as Hp.
  destruct (peek st) as [c|] eqn:Hpeek.
  - rewrite (rest_step c st Hb Hpeek) in *. cbn [span] in *.
    destruct (pred c).
    + rewrite Hp.
      destruct (consume_in_bounds c st Hb Hpeek) as [Hb1 _].
      rewrite IH by (auto; simpl in Hfuel; lia).
      cbn [tail bytes]. unfold Return.
      rewrite (consume_after c st Hb Hpeek), after_after. reflexivity.
    + destruct Hp as [e ->]. rewrite Z.eqb_refl.
      cbn [bytes]. now rewrite after_empty.
  - destruct Hp as [e ->]. rewrite Z.eqb_refl.
    rewrite (rest_end st (proj1 Hb) Hpeek). cbn [span bytes].
    now rewrite after_empty.
Qed.

(** ** Contracts of the primitive matchers *)

Lemma IndexByte_lower (set : string) (c : ascii) : -1 <= IndexByte set c.
Proof.
  induction set as [|b set IH]; cbn [IndexByte]; [lia|].
  destruct (Ascii.eqb b c); [lia|].
  destruct (Z.ltb_spec (IndexByte set c) 0); lia.
Qed.

Lemma IndexByte_mem (set : string) (c : ascii) :
  0 <= IndexByte set c <-> In c (list_ascii_of_string set).
Proof.
  induction set as [|b set IH]; cbn [IndexByte list_ascii_of_string In].
  - split; [lia | tauto].
  - destruct (Ascii.eqb_spec b c) as [->|Hne].
    + split; [auto | lia].
    + destruct (Z.ltb_spec (IndexByte set c) 0) as [Hlt|Hge].
      * split; [lia|]. intros [Heq|Hin]; [contradiction|].
        apply IH in Hin. lia.
      * split; [|lia]. intros _. right. apply IH. lia.
Qed.

(** [bytes.IndexByte] returns the first index holding the byte. *)
Lemma IndexByte_first (set : string) (c : ascii) :
  0 <= IndexByte set c ->
  String.get (Z.to_nat (IndexByte set c)) set = Some c /\
  forall j : nat, (j < Z.to_nat (IndexByte set c))%nat ->
                  String.get j set <> Some c.
Proof.
  induction set as [|b set IH]; cbn [IndexByte]; [lia|].
  destruct (Ascii.eqb_spec b c) as [->|Hne].
  - intros _. split; [reflexivity | simpl; lia].
  - destruct (Z.ltb_spec (IndexByte set c) 0) as [Hlt|Hge]; [lia|].
    intros _. destruct (IH Hge) as [Hget Hmin].
    replace (Z.to_nat (IndexByte set c + 1))
      with (S (Z.to_nat (IndexByte set c))) by lia.
    split; [exact Hget|].
    intros [|j] Hj; simpl; [congruence | apply Hmin; lia].
Qed.

Lemma Char_run (c : ascii) (st : ParseState) :
  in_bounds st ->
  Char c st =
    match peek st with
    | Some b =>
        if Ascii.eqb b c
        then Ret (VByte c, None) (after (String.String c EmptyString) st)
        else Ret (VNil, Some (trap st ("Expected '" ++ fmt_c c ++ "'"))) st
    | None => Ret (VNil, Some (trap st ("Expected '" ++ fmt_c c ++ "'"))) st
    end.
Proof.
  intros Hb. unfold Char. rewrite next_in_bounds by assumption.
  destruct (peek st) as [b|] eqn:Hp; [|reflexivity].
  destruct (Ascii.eqb_spec b c) as [->|]; [|reflexivity].
  now rewrite (consume_after c st Hb Hp).
Qed.

Lemma AnyChar_run (st : ParseState) :
  in_bounds st ->
  AnyChar st =
    match peek st with
    | Some c => Ret (VByte c, None) (after (String.String c EmptyString) st)
    | None => Ret (VNil, Some (trap st "Unexpected end of file")) st
    end.
Proof.
  intros Hb. unfold AnyChar. rewrite next_in_bounds by assumption.
  destruct (peek st) as [c|] eqn:Hp; [|reflexivity].
  now rewrite (consume_after c st Hb Hp).
Qed.

Lemma OneOf_run (set : string) (st : ParseState) :
  in_bounds st ->
  (forall c, peek st = Some c -> In c (list_ascii_of_string set) ->
     OneOf set st =
       Ret (VByte c, None) (after (String.String c EmptyString) st)) /\
  (forall c, peek st = Some c -> ~ In c (list_ascii_of_string set) ->
     OneOf set st =
       Ret (VNil,
            Some (trap st ("Expected one of '" ++ set ++ "' but got '"
                           ++ fmt_c c ++ "'"))) st) /\
  (peek st = None ->
     OneOf set st =
       Ret (VNil,
            Some (trap st ("Expected one of '" ++ set ++ "' but got '"
                           ++ fmt_c zero ++ "'"))) st).
Proof.
  intros Hb. unfold OneOf. rewrite next_in_bounds by assumption.
  split; [|split].
  - intros c Hp Hin. rewrite Hp. apply IndexByte_mem in Hin.
    destruct (Z.geb_spec (IndexByte set c) 0); [|lia].
    now rewrite (consume_after c st Hb Hp).
  - intros c Hp Hin. rewrite Hp.
    destruct (Z.geb_spec (IndexByte set c) 0) as [Hge|]; [|reflexivity].
    exfalso. apply Hin, IndexByte_mem. lia.
  - intros ->. reflexivity.
Qed.

Lemma NoneOf_run (set : string) (st : ParseState) :
  in_bounds st ->
  (forall c, peek st = Some c -> ~ In c (list_ascii_of_string set) ->
     NoneOf set st =
       Ret (VByte c, None) (after (String.String c EmptyString) st)) /\
  (forall c, peek st = Some c -> In c (list_ascii_of_string set) ->
     NoneOf set st =
       Ret (VNil, Some (trap st ("Unexpected '" ++ fmt_c c ++ "'"))) st) /\
  (peek st = None ->
     NoneOf set st =
       Ret (VNil, Some (trap st ("Unexpected '" ++ fmt_c zero ++ "'"))) st).
Proof.
  intros Hb. unfold NoneOf. rewrite next_in_bounds by assumption.
  pose proof (IndexByte_lower set) as Hlow.
  split; [|split].
  - intros c Hp Hin. rewrite Hp.
    destruct (Z.ltb_spec (IndexByte set c) 0) as [|Hge].
    + now rewrite (consume_after c st Hb Hp).
    + exfalso. apply Hin, IndexByte_mem. lia.
  - intros c Hp Hin. rewrite Hp. apply IndexByte_mem in Hin.
    destruct (Z.ltb_spec (IndexByte set c) 0); [lia | reflexivity].
  - intros ->. reflexivity.
Qed.

(** ** Choice and repetition of one-byte matchers *)

Lemma Either_of_matchers (pa pb : ascii -> bool) (p q : Parser) :
  matcher pa p -> matcher pb q ->
  matcher (fun c => pa c || pb c) (Either p q).
Proof.
  intros Hp Hq st Hb. specialize (Hp st Hb). specialize (Hq st Hb).
  unfold Either. destruct (peek st) as [c|].
  - destruct (pa c); cbn [orb].
    + now rewrite Hp.
    + destruct Hp as [e ->]. rewrite Z.eqb_refl. exact Hq.
  - destruct Hp as [e ->]. rewrite Z.eqb_refl. exact Hq.
Qed.

Lemma Letter_matcher :
  matcher (fun c => in_set "abcdefghijklmnopqrstuvwxyz" c
                    || in_set "ABCDEFGHIJKLMNOPQRSTUVWXYZ" c) Letter.
Proof. apply Either_of_matchers; apply OneOf_matcher. Qed.

Lemma AlphaNum_matcher :
  matcher (fun c => (in_set "abcdefghijklmnopqrstuvwxyz" c
                     || in_set "ABCDEFGHIJKLMNOPQRSTUVWXYZ" c)
                    || in_set "0123456789" c) AlphaNum.
Proof.
  apply Either_of_matchers; [apply Letter_matcher | apply OneOf_matcher].
Qed.

Lemma Many1_span (pred : ascii -> bool) (p : Parser) :
  matcher pred p ->
  forall (fuel : nat) (st : ParseState),
  in_bounds st -> (String.length (span pred (rest st)) <= fuel)%nat ->
  (span pred (rest st) <> EmptyString ->
     Many1 fuel p st =
       Ret (VList (bytes (span pred (rest st))), None)
           (after (span pred (rest st)) st)) /\
  (span pred (rest st) = EmptyString ->
     exists e, Many1 fuel p st = Ret (VNil, Some e) st /\
               p st = Ret (VNil, Some e) st).
Proof.
  intros Hm fuel st Hb Hfuel. unfold Many1, Bind.
  pose proof (Hm st Hb) as Hp.
  destruct (peek st) as [c|] eqn:Hpeek.
  - rewrite (rest_step c st Hb Hpeek) in *. cbn [span] in *.
    destruct (pred c).
    + split; [intros _ | discriminate].
      rewrite Hp. destruct (consume_in_bounds c st Hb Hpeek) as [Hb1 _].
      rewrite (Many_span pred p Hm)
        by (auto; simpl in Hfuel; lia).
      cbn [tail bytes]. unfold Return.
      rewrite (consume_after c st Hb Hpeek), after_after. reflexivity.
    + split; [congruence | intros _].
      destruct Hp as [e Hp]. exists e. now rewrite Hp.
  - rewrite (rest_end st (proj1 Hb) Hpeek). cbn [span].
    split; [congruence | intros _].
    destruct Hp as [e Hp]. exists e. now rewrite Hp.
Qed.

Lemma Skip_span (pred : ascii -> bool) (p : Parser) :
  matcher pred p ->
  forall (fuel : nat) (st : ParseState),
  in_bounds st -> (String.length (span pred (rest st)) < fuel)%nat ->
  Skip fuel p st = Ret (VNil, None) (after (span pred (rest st)) st).
Proof.
  intros Hm fuel st Hb Hfuel.
  unfold Skip, Maybe, Option, Either, Bind_, Return.
  now rewrite (Many_span pred p Hm fuel st Hb Hfuel).
Qed.

(** ** Laws of sequencing, choice and backtracking *)

(** X6. Sequencing.  [Return] is a left unit of [Bind]; [Bind] is
    associative; [Bind_ p q] is [Bind p] of the function that ignores its
    argument; and [Return] is a right unit of [Bind] for a [p] that gives
    nil with its errors, [Bind] replacing the value of a failure by nil. *)
Theorem Bind_laws (p : Parser) (f g : Value -> Parser) (x : Value)
  (st : ParseState) :
  Bind (Return x) f st = f x st /\
  Bind (Bind p f) g st = Bind p (fun y => Bind (f y) g) st /\
  Bind_ p (f x) st = Bind p (fun _ => f x) st /\
  ((forall v e st1, p st = Ret (v, Some e) st1 -> v = VNil) ->
   Bind p Return st = p st).
Proof.
  unfold Bind, Bind_, Return. repeat split.
  - destruct (p st) as [[y [e|]] st1| |]; reflexivity.
  - intros Hnil.
    destruct (p st) as [[y [e|]] st1| |] eqn:Hp; try reflexivity.
    now rewrite (Hnil y e st1 eq_refl).
Qed.

(** X7. Choice is associative: three alternatives are tried in the same
    order, from the same states and with the same commitment, however they
    are grouped. *)
Lemma Either_assoc (a b c : Parser) (st : ParseState) :
  Either (Either a b) c st = Either a (Either b c) st.
Proof.
  unfold Either.
  destruct (a st) as [[x [e|]] st1| |] eqn:Ha; try reflexivity.
  - destruct (Z.eqb_spec (Pos st1) (Pos st)) as [Heq|Hne].
    + rewrite Heq.
      destruct (b st1) as [[y [e'|]] st2| |]; try reflexivity.
    + destruct (Z.eqb_spec (Pos st1) (Pos st)); [contradiction | reflexivity].
Qed.

Lemma Either_Try_run (p q : Parser) (st st1 : ParseState)
  (v : Value) (e : error) :
  p st = Ret (v, Some e) st1 ->
  Either (Try p) q st = q (set_Pos st1 (Pos st)).
Proof.
  intros Hp. unfold Either, Try. rewrite Hp.
  cbn [set_Pos Pos]. now rewrite Z.eqb_refl.
Qed.

Lemma Try_Try (p : Parser) (st : ParseState) :
  Try (Try p) st = Try p st.
Proof.
  unfold Try. destruct (p st) as [[x [e|]] st1| |]; reflexivity.
Qed.

Lemma Try_fails_in_place (p : Parser) (st st1 : ParseState)
  (x : Value) (e : error) :
  Try p st = Ret (x, Some e) st1 -> Pos st1 = Pos st.
Proof.
  unfold Try. destruct (p st) as [[y [e'|]] s| |]; try discriminate.
  intros H. injection H as _ _ <-. reflexivity.
Qed.

Lemma Many_Try_run (p : Parser) (fuel : nat) (st st' : ParseState)
  (v : Value) (err : option error) :
  Many fuel (Try p) st = Ret (v, err) st' ->
  err = None /\ exists xs, v = VList xs.
Proof.
  apply Many_no_error. intros s x e s1. apply Try_fails_in_place.
Qed.

Lemma Maybe_Try_run (p : Parser) (st st1 : ParseState)
  (v : Value) (err : option error) :
  p st = Ret (v, err) st1 ->
  Maybe (Try p) st =
    Ret (VNil, None)
        match err with None => st1 | Some _ => set_Pos st1 (Pos st) end.
Proof.
  intros Hp. unfold Maybe, Option, Either, Bind_, Try, Return. rewrite Hp.
  destruct err; [|reflexivity].
  cbn [set_Pos Pos]. now rewrite Z.eqb_refl.
Qed.

Section FailLaws.

Variable Sprintf0 : string -> string.

(** X10. [Fail msg] fails where it stands, with the formatted message and
    the current line, so that [Either] always goes on to its second parser,
    [Bind] never calls its function, and [Try] changes nothing. *)
Theorem Fail_laws (msg : string) (p : Parser) (f : Value -> Parser)
  (st : ParseState) :
  Fail Sprintf0 msg st
    = Ret (VNil, Some (EParse {| Reason := Sprintf0 msg;
                                 ErrLine := Line st |})) st /\
  Either (Fail Sprintf0 msg) p st = p st /\
  Bind (Fail Sprintf0 msg) f st = Fail Sprintf0 msg st /\
  Try (Fail Sprintf0 msg) st = Fail Sprintf0 msg st.
Proof.
  unfold Either, Bind, Try, Fail, trap. cbn [Pos set_Pos].
  rewrite Z.eqb_refl. repeat split. now destruct st.
Qed.

End FailLaws.

Lemma Between_success (start_ end_ p : Parser) (st st' : ParseState)
  (v : Value) :
  Between start_ end_ p st = Ret (v, None) st' <->
  exists y st1 st2 z,
    start_ st = Ret (y, None) st1 /\
    p st1 = Ret (v, None) st2 /\
    end_ st2 = Ret (z, None) st'.
Proof.
  unfold Between, Bind_, Bind, Return. split.
  - intros H.
    destruct (start_ st) as [[y [e|]] st1| |]; try discriminate H.
    destruct (p st1) as [[x [e|]] st2| |] eqn:Hp; try discriminate H.
    destruct (end_ st2) as [[z [e|]] st3| |] eqn:He; try discriminate H.
    injection H as <- <-. exists y, st1, st2, z. auto.
  - intros [y [st1 [st2 [z [-> [-> ->]]]]]]. reflexivity.
Qed.

Lemma Between_failure (start_ end_ p : Parser) (st st' : ParseState)
  (v : Value) (e : error) :
  Between start_ end_ p st = Ret (v, Some e) st' <->
  v = VNil /\
  ((exists y, start_ st = Ret (y, Some e) st') \/
   (exists y st1, start_ st = Ret (y, None) st1 /\
      ((exists x, p st1 = Ret (x, Some e) st') \/
       (exists x st2 z, p st1 = Ret (x, None) st2 /\
                        end_ st2 = Ret (z, Some e) st')))).
Proof.
  unfold Between, Bind_, Bind, Return. split.
  - intros H.
    destruct (start_ st) as [[y [e0|]] st1| |]; try discriminate H.
    { injection H as <- <- <-. eauto. }
    destruct (p st1) as [[x [e1|]] st2| |] eqn:Hp; try discriminate H.
    { injection H as <- <- <-. split; [reflexivity|]. right.
      exists y, st1. split; [reflexivity|]. left. eauto. }
    destruct (end_ st2) as [[z [e2|]] st3| |] eqn:He; try discriminate H.
    injection H as <- <- <-. split; [reflexivity|]. right.
    exists y, st1. split; [reflexivity|]. right. eauto.
  - intros [-> [[y Hs]|[y [st1 [Hs [[x Hp]|[x [st2 [z [Hp He]]]]]]]]]];
      rewrite Hs; try rewrite Hp; try rewrite He; reflexivity.
Qed.

(** ** Runs of [Many] and [SepBy1], from the run to the result *)

Lemma Many_run_stop (q : Parser) (st s_last st' : ParseState)
  (xs : list Value) (y : Value) (e : error) :
  many_run q st xs s_last ->
  q s_last = Ret (y, Some e) st' -> Pos st' = Pos s_last ->
  forall fuel, (List.length xs < fuel)%nat ->
  Many fuel q st = Ret (VList xs, None) st'.
Proof.
  intros Hrun Hlast Hpos.
  induction Hrun as [st|st st1 st2 x xs Hq Hrun IH]; intros fuel Hfuel.
  - destruct fuel as [|fuel]; [simpl in Hfuel; lia|].
    now apply (Many_empty q fuel st st' y e).
  - destruct fuel as [|fuel]; [simpl in Hfuel; lia|].
    rewrite Many_unfold. unfold Option, Either, Many1, Bind.
    rewrite Hq, (IH Hlast Hpos fuel) by (simpl in Hfuel; lia).
    reflexivity.
Qed.

Lemma sep_run_many_run (p sep : Parser) (st st' : ParseState)
  (seps xs : list Value) :
  sep_run p sep st seps xs st' -> many_run (Bind_ sep p) st xs st'.
Proof.
  induction 1 as [st|st st1 st2 st3 y x seps xs Hsep Hp _ IH].
  - constructor.
  - apply many_run_cons with (st1 := st2); [|exact IH].
    unfold Bind_. now rewrite Hsep.
Qed.

(** X12. A run of elements and separators that ends on an attempt at [sep]
    then [p] which fails with the cursor where the attempt began is what
    [SepBy1] returns, given fuel beyond the number of separators. *)
Theorem SepBy1_complete (p sep : Parser) (st s1 s_last st' : ParseState)
  (x y : Value) (seps xs : list Value) (e : error) :
  p st = Ret (x, None) s1 ->
  sep_run p sep s1 seps xs s_last ->
  Bind_ sep p s_last = Ret (y, Some e) st' -> Pos st' = Pos s_last ->
  forall fuel, (List.length xs < fuel)%nat ->
  SepBy1 fuel p sep st = Ret (VList (x :: xs), None) st'.
Proof.
  intros Hp Hrun Hlast Hpos fuel Hfuel. unfold SepBy1, Bind. rewrite Hp.
  rewrite (Many_run_stop _ _ _ _ _ _ _ (sep_run_many_run _ _ _ _ _ _ Hrun)
             Hlast Hpos fuel Hfuel).
  reflexivity.
Qed.

(** X13. A separator that is matched, having consumed input, and is not
    followed by an element makes [SepBy1] fail with the element's error, and
    [SepBy] with it: the elements matched so far are not returned.  For
    parsers that only move forwards, from a state within bounds. *)
Theorem SepBy1_trailing_separator (p sep : Parser)
  (st s1 s_last s2 s3 : ParseState) (x y z : Value) (seps xs : list Value)
  (e : error) :
  forward p -> forward sep -> in_bounds st ->
  p st = Ret (x, None) s1 ->
  sep_run p sep s1 seps xs s_last ->
  sep s_last = Ret (y, None) s2 -> Pos s_last < Pos s2 ->
  p s2 = Ret (z, Some e) s3 ->
  forall fuel, (List.length xs < fuel)%nat ->
  SepBy1 fuel p sep st = Ret (VNil, Some e) s3 /\
  SepBy fuel p sep st = Ret (VNil, Some e) s3.
Proof.
  intros Hfp Hfs Hb Hp Hrun Hsep Hadv Hfail fuel Hfuel.
  destruct (Hfp _ _ _ _ Hb Hp) as [Hb1 Hle1].
  pose proof (sep_run_many_run _ _ _ _ _ _ Hrun) as Hmany.
  assert (Hq : forward (Bind_ sep p)) by now apply Bind__forward.
  destruct (many_run_forward _ _ _ _ Hq Hb1 Hmany) as [Hbl Hle2].
  destruct (Hfs _ _ _ _ Hbl Hsep) as [Hb2 _].
  destruct (Hfp _ _ _ _ Hb2 Hfail) as [_ Hle].
  assert (H1 : SepBy1 fuel p sep st = Ret (VNil, Some e) s3).
  { unfold SepBy1, Bind. rewrite Hp.
    rewrite (Many_run_error (Bind_ sep p) s1 s_last s3 xs z e Hq Hb1 Hmany).
    - reflexivity.
    - unfold Bind_. rewrite Hsep. exact Hfail.
    - lia.
    - exact Hfuel. }
  split; [exact H1|].
  unfold SepBy, Option, Either. rewrite H1.
  destruct (Z.eqb_spec (Pos s3) (Pos st)); [lia | reflexivity].
Qed.

(** X14. [SepBy] on the first element: if [p] fails with the position
    unchanged, the result is the empty sequence, in the state [p] left; if
    [p] fails with the position changed, the result is [p]'s error; if [p]
    succeeds, a success of [SepBy1] is the result. *)
Theorem SepBy_law (p sep : Parser) (fuel : nat) (st st1 : ParseState)
  (v : Value) (err : option error) :
  p st = Ret (v, err) st1 ->
  (forall e, err = Some e -> Pos st1 = Pos st ->
     SepBy fuel p sep st = Ret (VList [], None) st1) /\
  (forall e, err = Some e -> Pos st1 <> Pos st ->
     SepBy fuel p sep st = Ret (VNil, Some e) st1) /\
  (err = None ->
     forall w st', SepBy1 fuel p sep st = Ret (w, None) st' ->
     SepBy fuel p sep st = Ret (w, None) st').
Proof.
  intros Hp. unfold SepBy, Option, Either. repeat split.
  - intros e -> Hpos. unfold SepBy1, Bind, Return. rewrite Hp, Hpos.
    now rewrite Z.eqb_refl.
  - intros e -> Hpos. unfold SepBy1, Bind. rewrite Hp.
    destruct (Z.eqb_spec (Pos st1) (Pos st)); [contradiction | reflexivity].
  - intros _ w st' ->. reflexivity.
Qed.
(** ** [ManyTil] *)

Lemma ManyTil_unfold (fuel : nat) (p end_ : Parser) :
  ManyTil (S fuel) p end_ =
    Either (Bind_ (Try end_) (Return (VList [])))
           (Bind p (fun x => Bind (ManyTil fuel p end_) (tail x))).
Proof. reflexivity. Qed.

Lemma ManyTil_sound (p end_ : Parser) (fuel : nat) :
  forall (st st' : ParseState) (v : Value),
  ManyTil fuel p end_ st = Ret (v, None) st' ->
  exists xs, v = VList xs /\ til_run p end_ st xs st'.
Proof.
  induction fuel as [|fuel IH]; intros st st' v H; [discriminate H|].
  rewrite ManyTil_unfold in H. unfold Either, Bind_, Try, Bind, Return in H.
  destruct (end_ st) as [[y [e|]] st1| |] eqn:He; try discriminate H.
  - cbn [set_Pos Pos] in H. rewrite Z.eqb_refl in H.
    fold (set_Pos st1 (Pos st)) in H.
    destruct (p (set_Pos st1 (Pos st))) as [[x [e'|]] st2| |] eqn:Hp;
      try discriminate H.
    destruct (ManyTil fuel p end_ st2) as [[w [e'|]] st3| |] eqn:Hm;
      try discriminate H.
    destruct (IH _ _ _ Hm) as [xs [-> Hrun]].
    simpl in H. injection H as <- <-.
    exists (x :: xs). split; [reflexivity|]. econstructor; eassumption.
  - injection H as <- <-. exists []. split; [reflexivity|].
    econstructor; eassumption.
Qed.

Lemma ManyTil_complete (p end_ : Parser) (st st' : ParseState)
  (xs : list Value) :
  til_run p end_ st xs st' ->
  forall fuel, (List.length xs < fuel)%nat ->
  ManyTil fuel p end_ st = Ret (VList xs, None) st'.
Proof.
  induction 1 as [st st1 y He|st st1 st2 st3 y x e xs He Hp _ IH];
    intros fuel Hfuel;
    (destruct fuel as [|fuel]; [simpl in Hfuel; lia|]);
    rewrite ManyTil_unfold; unfold Either, Bind_, Try, Bind, Return;
    rewrite He.
  - reflexivity.
  - cbn [set_Pos Pos]. rewrite Z.eqb_refl.
    fold (set_Pos st1 (Pos st)). rewrite Hp.
    rewrite IH by (simpl in Hfuel; lia). reflexivity.
Qed.

(** When the terminator fails and [p] fails too, [ManyTil] fails with
    [p]'s error, in the state [p] left. *)
Lemma ManyTil_element_fails (p end_ : Parser) (fuel : nat)
  (st st1 st2 : ParseState) (y x : Value) (e e' : error) :
  end_ st = Ret (y, Some e) st1 ->
  p (set_Pos st1 (Pos st)) = Ret (x, Some e') st2 ->
  ManyTil (S fuel) p end_ st = Ret (VNil, Some e') st2.
Proof.
  intros He Hp. rewrite ManyTil_unfold.
  unfold Either, Bind_, Try, Bind, Return. rewrite He.
  cbn [set_Pos Pos]. rewrite Z.eqb_refl.
  fold (set_Pos st1 (Pos st)). now rewrite Hp.
Qed.
(** ** Orderly parsers *)

Lemma cursor_ok_in_bounds (st : ParseState) : cursor_ok st -> in_bounds st.
Proof. unfold cursor_ok, in_bounds. lia. Qed.

Lemma consume_cursor_ok (c : ascii) (st : ParseState) :
  cursor_ok st -> peek st = Some c ->
  cursor_ok (consume c st) /\ Source (consume c st) = Source st /\
  Pos st <= Pos (consume c st).
Proof.
  intros Hok Hp. pose proof (cursor_ok_in_bounds st Hok) as Hb.
  pose proof (peek_Some st c (proj1 Hb) Hp) as Hin.
  assert (HP : Pos (consume c st) = Pos st + 1)
    by (apply consume_Pos; unfold cursor_ok in Hok; lia).
  unfold cursor_ok in *. rewrite HP.
  change (Source (consume c st)) with (Source st).
  repeat split; try reflexivity; lia.
Qed.

Lemma matcher_orderly (pred : ascii -> bool) (p : Parser) :
  matcher pred p -> orderly p.
Proof.
  intros Hm st Hok. specialize (Hm st (cursor_ok_in_bounds st Hok)).
  destruct (peek st) as [c|] eqn:Hp.
  - destruct (pred c).
    + rewrite Hm. destruct (consume_cursor_ok c st Hok Hp) as [H1 [H2 H3]].
      (split; [|split; [|split]]); auto; congruence.
    + destruct Hm as [e ->]. (split; [|split; [|split]]); auto; lia.
  - destruct Hm as [e ->]. (split; [|split; [|split]]); auto; lia.
Qed.

Lemma Eof_orderly : orderly Eof.
Proof.
  intros st Hok. unfold Eof.
  rewrite next_in_bounds by now apply cursor_ok_in_bounds.
  destruct (peek st) as [c|] eqn:Hp.
  - destruct (consume_cursor_ok c st Hok Hp) as [H1 [H2 H3]].
    (split; [|split; [|split]]); auto.
  - (split; [|split; [|split]]); auto; try lia; congruence.
Qed.

Lemma substring_length (s : string) : forall n m : nat,
  (String.length (substring n m s) <= String.length s - n)%nat.
Proof.
  induction s as [|a s IH]; intros n m.
  - destruct n, m; simpl; lia.
  - destruct n as [|n].
    + destruct m as [|m]; simpl; [lia|]. specialize (IH 0%nat m). lia.
    + simpl. apply IH.
Qed.

Lemma String_orderly (s : string) : orderly (String s).
Proof.
  intros st Hok. unfold String.
  destruct (String_loop_spec s s (Pos st) st) as [[Hsub ->]|[_ [L ->]]];
    try (unfold cursor_ok in Hok; lia).
  - pose proof (substring_length (Source st) (Z.to_nat (Pos st))
                  (String.length s)) as Hlen.
    rewrite Hsub in Hlen.
    unfold cursor_ok, len in *. cbn [Source Pos].
    (split; [|split; [|split]]); try reflexivity; try lia. congruence.
  - unfold cursor_ok in *. cbn [Source Pos].
    (split; [|split; [|split]]); try reflexivity; lia.
Qed.

Lemma Return_orderly (x : Value) : orderly (Return x).
Proof.
  intros st Hok. unfold Return.
  (split; [|split; [|split]]); auto; try lia; congruence.
Qed.

Lemma Bind_orderly (p : Parser) (f : Value -> Parser) :
  orderly p -> (forall x, orderly (f x)) -> orderly (Bind p f).
Proof.
  intros Hp Hf st Hok. specialize (Hp st Hok). unfold Bind.
  destruct (p st) as [[x [e|]] st1| |]; try exact Hp.
  - destruct Hp as [H1 [H2 [H3 _]]]. (split; [|split; [|split]]); auto.
  - destruct Hp as [H1 [H2 [H3 _]]]. specialize (Hf x st1 H1).
    destruct (f x st1) as [[y err] st2| |]; try exact Hf.
    destruct Hf as [G1 [G2 [G3 G4]]].
    (split; [|split; [|split]]); auto; try congruence; lia.
Qed.

Lemma Bind__orderly (p1 p2 : Parser) :
  orderly p1 -> orderly p2 -> orderly (Bind_ p1 p2).
Proof.
  intros H1 H2 st Hok.
  pose proof (Bind_orderly p1 (fun _ => p2) H1 (fun _ => H2) st Hok) as H.
  unfold Bind, Bind_ in *. destruct (p1 st) as [[x [e|]] st1| |]; exact H.
Qed.

Lemma Either_orderly (p1 p2 : Parser) :
  orderly p1 -> orderly p2 -> orderly (Either p1 p2).
Proof.
  intros H1 H2 st Hok. specialize (H1 st Hok). unfold Either.
  destruct (p1 st) as [[x [e|]] st1| |]; try exact H1.
  destruct H1 as [G1 [G2 [G3 _]]].
  destruct (Z.eqb_spec (Pos st1) (Pos st)) as [Heq|].
  - specialize (H2 st1 G1).
    destruct (p2 st1) as [[y err] st2| |]; try exact H2.
    destruct H2 as [K1 [K2 [K3 K4]]].
    (split; [|split; [|split]]); auto; try congruence; lia.
  - (split; [|split; [|split]]); auto.
Qed.

Lemma Try_orderly (p : Parser) : orderly p -> orderly (Try p).
Proof.
  intros Hp st Hok. specialize (Hp st Hok). unfold Try.
  destruct (p st) as [[x [e|]] st1| |]; try exact Hp.
  destruct Hp as [G1 [G2 [G3 _]]].
  unfold cursor_ok in *. cbn [set_Pos Source Pos]. rewrite G2.
  (split; [|split; [|split]]); auto; lia.
Qed.

Lemma tail_orderly (x : Value) (l : list Value) : orderly (tail x (VList l)).
Proof. apply Return_orderly. Qed.

Lemma Bind_list_orderly (q : Parser) (x : Value) :
  orderly q ->
  (forall st v st1, q st = Ret (v, None) st1 -> exists l, v = VList l) ->
  orderly (Bind q (tail x)).
Proof.
  intros Hq Hl st Hok. specialize (Hq st Hok). unfold Bind.
  destruct (q st) as [[v [e|]] st1| |] eqn:Hqs; try exact Hq.
  - destruct Hq as [G1 [G2 [G3 _]]]. (split; [|split; [|split]]); auto.
  - destruct (Hl _ _ _ Hqs) as [l ->]. cbn [tail]. unfold Return.
    destruct Hq as [G1 [G2 [G3 _]]].
    (split; [|split; [|split]]); auto; congruence.
Qed.

Lemma Many_returns_list (q : Parser) (fuel : nat) (st st1 : ParseState)
  (v : Value) :
  Many fuel q st = Ret (v, None) st1 -> exists l, v = VList l.
Proof.
  intros H. destruct (Many_success_inv q fuel st v st1 H) as [xs [s [-> _]]].
  eauto.
Qed.

Lemma Many_orderly (p : Parser) (fuel : nat) :
  orderly p -> orderly (Many fuel p).
Proof.
  intros Hp. induction fuel as [|fuel IH]; [intros st _; exact I|].
  rewrite Many_unfold. unfold Option, Many1.
  apply Either_orderly; [|apply Return_orderly].
  apply Bind_orderly; [exact Hp|]. intros x.
  apply Bind_list_orderly; [exact IH|].
  intros s v s1. apply Many_returns_list.
Qed.

Lemma ManyTil_returns_list (p end_ : Parser) (fuel : nat)
  (st st1 : ParseState) (v : Value) :
  ManyTil fuel p end_ st = Ret (v, None) st1 -> exists l, v = VList l.
Proof.
  intros H. destruct (ManyTil_sound p end_ fuel st st1 v H) as [xs [-> _]].
  eauto.
Qed.

Lemma ManyTil_orderly (p end_ : Parser) (fuel : nat) :
  orderly p -> orderly end_ -> orderly (ManyTil fuel p end_).
Proof.
  intros Hp He. induction fuel as [|fuel IH]; [intros st _; exact I|].
  rewrite ManyTil_unfold. apply Either_orderly.
  - apply Bind__orderly; [now apply Try_orderly | apply Return_orderly].
  - apply Bind_orderly; [exact Hp|]. intros x.
    apply Bind_list_orderly; [exact IH|].
    intros s v s1. apply ManyTil_returns_list.
Qed.

(** X17. The primitive parsers are orderly: with the cursor inside the
    source they do not panic, keep the source, leave the cursor inside the
    source and not before where it was, and give nil with an error. *)
Theorem primitives_orderly :
  orderly AnyChar /\ orderly Eof /\
  (forall c, orderly (Char c)) /\
  (forall set, orderly (OneOf set)) /\
  (forall set, orderly (NoneOf set)) /\
  (forall s, orderly (String s)) /\
  (forall x, orderly (Return x)) /\
  (forall Sprintf0 msg, orderly (Fail Sprintf0 msg)).
Proof.
  repeat match goal with |- _ /\ _ => split end.
  - exact (matcher_orderly _ _ AnyChar_matcher).
  - exact Eof_orderly.
  - intros c. exact (matcher_orderly _ _ (Char_matcher c)).
  - intros set. exact (matcher_orderly _ _ (OneOf_matcher set)).
  - intros set. exact (matcher_orderly _ _ (NoneOf_matcher set)).
  - exact String_orderly.
  - exact Return_orderly.
  - intros F msg st Hok. unfold Fail.
    (split; [|split; [|split]]); auto; lia.
Qed.

(** X18. Every combinator of the package builds an orderly parser out of
    orderly parsers, for every fuel. *)
Theorem combinators_orderly :
  (forall p f, orderly p -> (forall x, orderly (f x)) -> orderly (Bind p f)) /\
  (forall p1 p2, orderly p1 -> orderly p2 -> orderly (Bind_ p1 p2)) /\
  (forall p1 p2, orderly p1 -> orderly p2 -> orderly (Either p1 p2)) /\
  (forall p, orderly p -> orderly (Try p)) /\
  (forall x p, orderly p -> orderly (Option x p)) /\
  (forall p, orderly p -> orderly (Maybe p)) /\
  (forall s e p, orderly s -> orderly e -> orderly p ->
                 orderly (Between s e p)) /\
  (forall fuel p, orderly p -> orderly (Many fuel p)) /\
  (forall fuel p, orderly p -> orderly (Many1 fuel p)) /\
  (forall fuel p, orderly p -> orderly (Skip fuel p)) /\
  (forall fuel p sep, orderly p -> orderly sep ->
                      orderly (SepBy1 fuel p sep)) /\
  (forall fuel p sep, orderly p -> orderly sep ->
                      orderly (SepBy fuel p sep)) /\
  (forall fuel p e, orderly p -> orderly e -> orderly (ManyTil fuel p e)).
Proof.
  assert (HOpt : forall x p, orderly p -> orderly (Option x p)).
  { intros x p Hp. apply Either_orderly; [exact Hp | apply Return_orderly]. }
  assert (HMaybe : forall p, orderly p -> orderly (Maybe p)).
  { intros p Hp. apply HOpt, Bind__orderly; [exact Hp | apply Return_orderly]. }
  assert (HSep1 : forall fuel p sep, orderly p -> orderly sep ->
                                     orderly (SepBy1 fuel p sep)).
  { intros fuel p sep Hp Hs. apply Bind_orderly; [exact Hp|]. intros x.
    apply Bind_list_orderly.
    - apply Many_orderly, Bind__orderly; assumption.
    - intros s v s1. apply Many_returns_list. }
  repeat match goal with |- _ /\ _ => split end.
  - exact Bind_orderly.
  - exact Bind__orderly.
  - exact Either_orderly.
  - exact Try_orderly.
  - exact HOpt.
  - exact HMaybe.
  - intros s e p Hs He Hp. apply Bind__orderly; [exact Hs|].
    apply Bind_orderly; [exact Hp|]. intros x.
    apply Bind__orderly; [exact He | apply Return_orderly].
  - intros fuel p. apply Many_orderly.
  - intros fuel p Hp. apply Bind_orderly; [exact Hp|]. intros x.
    apply Bind_list_orderly; [now apply Many_orderly|].
    intros s v s1. apply Many_returns_list.
  - intros fuel p Hp. apply HMaybe. now apply Many_orderly.
  - exact HSep1.
  - intros fuel p sep Hp Hs. apply HOpt. now apply HSep1.
  - intros fuel p e. apply ManyTil_orderly.
Qed.

(** X19. [Parse] on a source an [int] can measure, with an orderly parser:
    the run does not panic, and when it returns the cursor is between 0 and
    the length of the source, the source is the one given, and a failure
    carries nil. *)
Theorem Parse_orderly (source : string) (p : Parser) :
  orderly p -> len source <= max_int ->
  match Parse source p with
  | Ret (v, err) st' =>
      0 <= Pos st' <= len source /\ Source st' = source /\
      (err <> None -> v = VNil)
  | Panic => False
  | Diverge => True
  end.
Proof.
  intros Hp Hlen. unfold Parse.
  assert (Hok : cursor_ok (start source)).
  { unfold cursor_ok, start, len in *. cbn [Source Pos]. lia. }
  specialize (Hp (start source) Hok).
  destruct (p (start source)) as [[v err] st'| |]; try exact Hp.
  destruct Hp as [[H1 _] [H2 [_ H4]]]. rewrite H2 in H1.
  cbn [start Source] in *. auto.
Qed.

(** ** The parsers built at package initialisation *)

(** X20. [Eol] succeeds at the end of the input and nowhere else: on any
    byte, a line feed included, [Eof] has consumed the byte when it fails,
    so [Newline] is not tried and [Eol] fails one byte further. *)
Theorem Eol_only_at_end (st : ParseState) :
  in_bounds st ->
  Eol st =
    match peek st with
    | None => Ret (VNil, None) st
    | Some c =>
        Ret (VNil,
             Some (trap (after (String.String c EmptyString) st)
                        ("Expected end of file but got '" ++ fmt_c c ++ "'")))
            (after (String.String c EmptyString) st)
    end.
Proof.
  intros Hb. unfold Eol, Either, Eof.
  rewrite next_in_bounds by assumption.
  destruct (peek st) as [c|] eqn:Hp; [|reflexivity].
  rewrite (consume_after c st Hb Hp).
  unfold after at 1. cbn [Pos]. unfold len. simpl String.length.
  destruct (Z.eqb_spec (Pos st + Z.of_nat 1) (Pos st)); [lia | reflexivity].
Qed.

(** X5. The choice of two sets, as in [Letter]: [Either (OneOf a) (OneOf
    b)] accepts the byte under the cursor exactly when it is in [a] or in
    [b]; when it fails, the state is untouched and the reason names the set
    [b] only. *)
Theorem Either_OneOf (a b : string) (st : ParseState) :
  in_bounds st ->
  Either (OneOf a) (OneOf b) st =
    match peek st with
    | Some c =>
        if in_set a c || in_set b c
        then Ret (VByte c, None) (after (String.String c EmptyString) st)
        else Ret (VNil,
                  Some (trap st ("Expected one of '" ++ b ++ "' but got '"
                                 ++ fmt_c c ++ "'"))) st
    | None =>
        Ret (VNil,
             Some (trap st ("Expected one of '" ++ b ++ "' but got '"
                            ++ fmt_c zero ++ "'"))) st
    end.
Proof.
  intros Hb. unfold Either, OneOf, in_set.
  rewrite next_in_bounds by assumption.
  destruct (peek st) as [c|] eqn:Hp.
  - destruct (IndexByte a c >=? 0); cbn [orb].
    + now rewrite (consume_after c st Hb Hp).
    + rewrite Z.eqb_refl, next_in_bounds, Hp by assumption.
      destruct (IndexByte b c >=? 0); [|reflexivity].
      now rewrite (consume_after c st Hb Hp).
  - rewrite Z.eqb_refl, next_in_bounds, Hp by assumption. reflexivity.
Qed.

(** X21. [HexDigit] rejects the lower-case [b], which its set leaves out,
    and accepts the upper-case [B]. *)
Theorem HexDigit_rejects_b (st : ParseState) :
  in_bounds st ->
  (peek st = Some "b"%char ->
     HexDigit st =
       Ret (VNil,
            Some (trap st
                    "Expected one of '0123456789acdefABCDEF' but got 'b'"))
           st) /\
  (peek st = Some "B"%char ->
     HexDigit st =
       Ret (VByte "B", None)
           (after (String.String "B"%char EmptyString) st)).
Proof.
  intros Hb. unfold HexDigit, OneOf.
  rewrite next_in_bounds by assumption.
  split; intros Hp; rewrite Hp.
  - reflexivity.
  - cbv beta. rewrite <- (consume_after "B"%char st Hb Hp). reflexivity.
Qed.

(** ** Reading up to a delimiter *)

Lemma String_result (t : string) (st : ParseState) :
  in_bounds st ->
  (substring (Z.to_nat (Pos st)) (String.length t) (Source st) = t /\
   String t st = Ret (VString t, None) (after t st))
  \/
  (substring (Z.to_nat (Pos st)) (String.length t) (Source st) <> t /\
   exists L,
     String t st =
       Ret (VNil, Some (EParse {| Reason := "Expected '" ++ t ++ "'";
                                  ErrLine := L |}))
           {| Source := Source st; Pos := Pos st; Line := L |}).
Proof.
  intros [Hpos Hlen]. unfold String, after.
  exact (String_loop_spec t t (Pos st) st Hpos Hlen).
Qed.

Lemma til_run_until (t : string) (st st' : ParseState) (xs : list Value) :
  til_run AnyChar (String t) st xs st' ->
  in_bounds st ->
  exists r,
    xs = bytes r /\
    substring (Z.to_nat (Pos st)) (String.length (r ++ t)) (Source st)
      = r ++ t /\
    Pos st' = Pos st + len r + len t /\
    Source st' = Source st /\
    forall k : nat, (k < String.length r)%nat ->
      substring (Z.to_nat (Pos st) + k) (String.length t) (Source st) <> t.
Proof.
  induction 1 as [st st1 y He|st st1 st2 st3 y x e xs He Hp _ IH];
    intros Hb.
  - destruct (String_result t st Hb) as [[Hsub Hs]|[_ [L Hs]]];
      rewrite Hs in He; [|discriminate He].
    injection He as _ <-. exists EmptyString.
    cbn [bytes append String.length]. unfold after, len. cbn [Pos Source].
    split; [reflexivity|]. split; [exact Hsub|].
    split; [simpl; lia|]. split; [reflexivity|].
    intros k Hk. lia.
  - destruct (String_result t st Hb) as [[_ Hs]|[Hne [L Hs]]];
      rewrite Hs in He; [discriminate He|].
    injection He as _ _ <-.
    set (s1 := {| Source := Source st; Pos := Pos st; Line := L |}) in *.
    change (set_Pos s1 (Pos st)) with s1 in Hp.
    assert (Hb1 : in_bounds s1) by exact Hb.
    rewrite (AnyChar_run s1 Hb1) in Hp.
    destruct (peek s1) as [c|] eqn:Hpeek; [|discriminate Hp].
    injection Hp as <- <-.
    assert (Hget : String.get (Z.to_nat (Pos st)) (Source st) = Some c)
      by exact Hpeek.
    destruct Hb as [Hpos Hlen].
    pose proof (peek_Some s1 c Hpos Hpeek) as Hin. cbn [s1 Pos Source] in Hin.
    destruct IH as [r [-> [Hsub [Hp' [Hsrc Hfirst]]]]].
    { unfold in_bounds, after, len in *. cbn [Source Pos s1 String.length].
      lia. }
    unfold after in Hsub, Hp', Hsrc, Hfirst. cbn [Source Pos s1] in *.
    replace (Z.to_nat (Pos st + len (String.String c "")))
      with (S (Z.to_nat (Pos st))) in * by (unfold len; simpl; lia).
    exists (String.String c r). cbn [bytes append String.length].
    split; [reflexivity|]. split.
    { rewrite (substring_step _ _ _ c Hget). now rewrite Hsub. }
    split.
    { rewrite Hp'. unfold len. simpl String.length. lia. }
    split; [exact Hsrc|].
    intros [|k] Hk.
    + now rewrite Nat.add_0_r.
    + replace (Z.to_nat (Pos st) + S k)%nat
        with (S (Z.to_nat (Pos st)) + k)%nat by lia.
      apply Hfirst. lia.
Qed.

(** X16. Reading up to a delimiter.  When [ManyTil AnyChar (String t)]
    succeeds from a state within bounds, its value is the bytes [r] such
    that the source holds [r] followed by [t] at the cursor, [t] occurs at
    no earlier offset from the cursor, and the cursor is left just after
    that first [t]. *)
Theorem ManyTil_reads_until (t : string) (fuel : nat)
  (st st' : ParseState) (v : Value) :
  in_bounds st ->
  ManyTil fuel AnyChar (String t) st = Ret (v, None) st' ->
  exists r,
    v = VList (bytes r) /\
    substring (Z.to_nat (Pos st)) (String.length (r ++ t)) (Source st)
      = r ++ t /\
    Pos st' = Pos st + len r + len t /\
    Source st' = Source st /\
    forall k : nat, (k < String.length r)%nat ->
      substring (Z.to_nat (Pos st) + k) (String.length t) (Source st) <> t.
Proof.
  intros Hb H.
  destruct (ManyTil_sound _ _ _ _ _ _ H) as [xs [-> Hrun]].
  destruct (til_run_until t st st' xs Hrun Hb) as [r [-> Hr]].
  exists r. split; [reflexivity | exact Hr].
Qed.

(** * The further properties, stated *)

Ltac bounded := split; [simpl; lia | vm_compute; discriminate].

(** X1. [next] within bounds: if there is a byte under the cursor and the
    predicate accepts it, [next] returns it with [true], one byte further
    and one line down if it is a line feed; otherwise it returns [false]
    with the byte (zero at the end of the input) and the state untouched.
    With a negative position the index expression panics. *)
Theorem next_contract (pred : ascii -> bool) (st : ParseState) :
  (in_bounds st ->
   next pred st =
     match peek st with
     | Some c =>
         if pred c
         then Ret (c, true) (after (String.String c EmptyString) st)
         else Ret (c, false) st
     | None => Ret (zero, false) st
     end) /\
  (Pos st < 0 -> next pred st = Panic).
Proof.
  split.
  - intros Hb. rewrite next_in_bounds by assumption.
    destruct (peek st) as [c|] eqn:Hp; [|reflexivity].
    now rewrite (consume_after c st Hb Hp).
  - apply next_negative_panics.
Qed.

Lemma next_contract_witness :
  next (fun _ => true) (start "a")
    = Ret ("a"%char, true) {| Source := "a"; Pos := 1; Line := 1 |} /\
  next (fun _ => true) {| Source := "a"; Pos := -1; Line := 1 |} = Panic.
Proof.
  split.
  - apply (proj1 (next_contract (fun _ => true) (start "a"))). bounded.
  - apply (proj2 (next_contract (fun _ => true)
                    {| Source := "a"; Pos := -1; Line := 1 |})).
    simpl. lia.
Defined.

(** X2. [Char c] and [AnyChar] within bounds.  [Char c] accepts exactly the
    byte [c] and returns it; on any other byte and at the end of the input
    it fails with [Expected 'c'], the state untouched.  [AnyChar] accepts
    whatever byte is there and fails only at the end of the input, with
    [Unexpected end of file]. *)
Theorem Char_AnyChar_contract (c : ascii) (st : ParseState) :
  in_bounds st ->
  Char c st =
    match peek st with
    | Some b =>
        if Ascii.eqb b c
        then Ret (VByte c, None) (after (String.String c EmptyString) st)
        else Ret (VNil, Some (trap st ("Expected '" ++ fmt_c c ++ "'"))) st
    | None => Ret (VNil, Some (trap st ("Expected '" ++ fmt_c c ++ "'"))) st
    end /\
  AnyChar st =
    match peek st with
    | Some b => Ret (VByte b, None) (after (String.String b EmptyString) st)
    | None => Ret (VNil, Some (trap st "Unexpected end of file")) st
    end.
Proof.
  intros Hb. split; [now apply Char_run | now apply AnyChar_run].
Qed.

Lemma Char_AnyChar_contract_witness :
  Char "y" (start "x")
    = Ret (VNil, Some (EParse {| Reason := "Expected 'y'"; ErrLine := 1 |}))
        (start "x") /\
  AnyChar (start "x")
    = Ret (VByte "x", None) {| Source := "x"; Pos := 1; Line := 1 |}.
Proof.
  apply (Char_AnyChar_contract "y"%char (start "x")). bounded.
Defined.

(** X3. [OneOf set] and [NoneOf set] within bounds.  [OneOf] accepts the
    byte under the cursor exactly when it occurs in [set]; [NoneOf] exactly
    when it does not.  Both fail with the state untouched, and at the end
    of the input both fail reporting the zero byte: [NoneOf] does not accept
    the end of the input. *)
Theorem OneOf_NoneOf_contract (set : string) (st : ParseState) :
  in_bounds st ->
  (forall c, peek st = Some c -> In c (list_ascii_of_string set) ->
     OneOf set st =
       Ret (VByte c, None) (after (String.String c EmptyString) st) /\
     NoneOf set st =
       Ret (VNil, Some (trap st ("Unexpected '" ++ fmt_c c ++ "'"))) st) /\
  (forall c, peek st = Some c -> ~ In c (list_ascii_of_string set) ->
     OneOf set st =
       Ret (VNil,
            Some (trap st ("Expected one of '" ++ set ++ "' but got '"
                           ++ fmt_c c ++ "'"))) st /\
     NoneOf set st =
       Ret (VByte c, None) (after (String.String c EmptyString) st)) /\
  (peek st = None ->
     OneOf set st =
       Ret (VNil,
            Some (trap st ("Expected one of '" ++ set ++ "' but got '"
                           ++ fmt_c zero ++ "'"))) st /\
     NoneOf set st =
       Ret (VNil, Some (trap st ("Unexpected '" ++ fmt_c zero ++ "'"))) st).
Proof.
  intros Hb.
  destruct (OneOf_run set st Hb) as [O1 [O2 O3]].
  destruct (NoneOf_run set st Hb) as [N1 [N2 N3]].
  split; [|split].
  - intros c Hp Hin. split; [now apply O1 | now apply N2].
  - intros c Hp Hin. split; [now apply O2 | now apply N1].
  - intros Hp. split; [now apply O3 | now apply N3].
Qed.

Lemma OneOf_NoneOf_contract_witness :
  OneOf "xyz" (start "y")
    = Ret (VByte "y", None) {| Source := "y"; Pos := 1; Line := 1 |} /\
  NoneOf "xyz" (start "y")
    = Ret (VNil, Some (EParse {| Reason := "Unexpected 'y'"; ErrLine := 1 |}))
        (start "y").
Proof.
  apply (proj1 (OneOf_NoneOf_contract "xyz" (start "y") ltac:(bounded))
           "y"%char).
  - reflexivity.
  - simpl. tauto.
Defined.

(** X4. Repetition of a one-byte matcher.  For [p] the matcher of [pred],
    within bounds and with fuel beyond the length of the run, [Many p]
    returns the longest run of bytes satisfying [pred] that starts at the
    cursor and leaves the cursor after it, the line counter incremented
    once per line feed of the run; [Skip p] consumes the same run and
    returns nil; [Many1 p] does as [Many p] when the run is not empty and
    fails with [p]'s error, consuming nothing, when it is. *)
Theorem matcher_repetition (pred : ascii -> bool) (p : Parser)
  (fuel : nat) (st : ParseState) :
  matcher pred p -> in_bounds st ->
  (String.length (span pred (rest st)) < fuel)%nat ->
  Many fuel p st =
    Ret (VList (bytes (span pred (rest st))), None)
        (after (span pred (rest st)) st) /\
  Skip fuel p st = Ret (VNil, None) (after (span pred (rest st)) st) /\
  (span pred (rest st) <> EmptyString ->
     Many1 fuel p st =
       Ret (VList (bytes (span pred (rest st))), None)
           (after (span pred (rest st)) st)) /\
  (span pred (rest st) = EmptyString ->
     exists e, Many1 fuel p st = Ret (VNil, Some e) st /\
               p st = Ret (VNil, Some e) st).
Proof.
  intros Hm Hb Hfuel.
  split; [now apply (Many_span pred)|].
  split; [now apply (Skip_span pred)|].
  apply (Many1_span pred p Hm fuel st Hb). lia.
Qed.

Lemma matcher_repetition_witness :
  Many 4 Letter (start "abC1")
    = Ret (VList [VByte "a"; VByte "b"; VByte "C"], None)
        {| Source := "abC1"; Pos := 3; Line := 1 |} /\
  Skip 4 Letter (start "abC1")
    = Ret (VNil, None) {| Source := "abC1"; Pos := 3; Line := 1 |}.
Proof.
  destruct (matcher_repetition _ Letter 4%nat (start "abC1") Letter_matcher)
    as [HM [HS _]].
  - bounded.
  - vm_compute. lia.
  - split; [exact HM | exact HS].
Defined.

Lemma Either_OneOf_witness :
  Letter (start "Q")
    = Ret (VByte "Q", None) {| Source := "Q"; Pos := 1; Line := 1 |} /\
  Letter (start "7")
    = Ret (VNil,
           Some (EParse {| Reason := "Expected one of "
                             ++ "'ABCDEFGHIJKLMNOPQRSTUVWXYZ' but got '7'";
                           ErrLine := 1 |}))
        (start "7").
Proof.
  split.
  - apply (Either_OneOf "abcdefghijklmnopqrstuvwxyz"
             "ABCDEFGHIJKLMNOPQRSTUVWXYZ" (start "Q")). bounded.
  - apply (Either_OneOf "abcdefghijklmnopqrstuvwxyz"
             "ABCDEFGHIJKLMNOPQRSTUVWXYZ" (start "7")). bounded.
Defined.

Lemma Bind_laws_witness :
  Bind (Char "a") Return (start "b") = Char "a" (start "b").
Proof.
  apply (Bind_laws (Char "a") Return Return VNil (start "b")).
  intros v e st1 H. vm_compute in H. now injection H as <- _ _.
Defined.

(** X8. [Try] twice is [Try] once, and however far [p] had got before
    failing, [Either (Try p) q] runs [q] from the state [p] left with the
    position where it was before the attempt. *)
Theorem Try_laws (p q : Parser) (st : ParseState) :
  Try (Try p) st = Try p st /\
  (forall v e st1, p st = Ret (v, Some e) st1 ->
     Either (Try p) q st = q (set_Pos st1 (Pos st))).
Proof.
  split; [apply Try_Try|]. intros v e st1. apply Either_Try_run.
Qed.

Lemma Try_laws_witness :
  Either (Try ab) (Char "a") (start "ac")
    = Char "a" (set_Pos {| Source := "ac"; Pos := 1; Line := 1 |} 0).
Proof.
  apply (proj2 (Try_laws ab (Char "a") (start "ac")) VNil
           (EParse {| Reason := "Expected 'b'"; ErrLine := 1 |})).
  reflexivity.
Defined.

(** [Try] does not make a parser consume: under [Many], one that succeeds
    without consuming still recurses without end. *)
Lemma Many_Try_Return_diverges (x : Value) (fuel : nat) :
  forall st, Many fuel (Try (Return x)) st = Diverge.
Proof.
  induction fuel as [|fuel IH]; intros st; [reflexivity|].
  rewrite Many_unfold. unfold Option, Either, Many1, Bind.
  unfold Try at 1, Return at 1. now rewrite IH.
Qed.

(** X9. Wrapped in [Try], a parser can be repeated or made optional without
    its failures getting through.  [Many (Try p)] never returns an error:
    whenever it returns, it returns a sequence; and it does return one,
    given fuel beyond the measure, from every state of an invariant from
    which [p] returns and which [p]'s successes preserve while decreasing
    the measure.  [Maybe (Try p)] succeeds with nil whenever [p] returns, in
    the state [p] left, the position put back if [p] failed.  Without the
    measure nothing makes [Many (Try p)] return: on [Try (Return x)] it
    recurses without end. *)
Theorem Try_recovers (p : Parser) (st : ParseState) :
  (forall fuel v err st',
     Many fuel (Try p) st = Ret (v, err) st' ->
     err = None /\ exists xs, v = VList xs) /\
  (forall v err st1,
     p st = Ret (v, err) st1 ->
     Maybe (Try p) st =
       Ret (VNil, None)
           match err with None => st1 | Some _ => set_Pos st1 (Pos st) end) /\
  (forall (Inv : ParseState -> Prop) (size : ParseState -> nat),
     (forall s, Inv s ->
        exists x err s1,
          p s = Ret (x, err) s1 /\
          (err = None -> Inv s1 /\ (size s1 < size s)%nat)) ->
     forall fuel, Inv st -> (size st < fuel)%nat ->
     exists xs st', Many fuel (Try p) st = Ret (VList xs, None) st') /\
  (forall x fuel, Many fuel (Try (Return x)) st = Diverge).
Proof.
  split; [|split; [|split]].
  - intros fuel v err st'. apply Many_Try_run.
  - intros v err st1. apply Maybe_Try_run.
  - intros Inv size Hret fuel HI Hsz.
    apply (Many_total (Try p)
             (fun s x e s1 => Try_fails_in_place p s s1 x e) Inv size);
      [|exact HI | exact Hsz].
    intros s Hs. destruct (Hret s Hs) as [x [[e|] [s1 [Hp Hok]]]];
      unfold Try; rewrite Hp.
    + exists VNil, (Some e), (set_Pos s1 (Pos s)).
      split; [reflexivity | discriminate].
    + exists x, None, s1. split; [reflexivity | exact Hok].
  - intros x fuel. apply Many_Try_Return_diverges.
Qed.

Lemma Try_recovers_witness :
  (@None error = None /\ exists xs, VList [VByte "b"] = VList xs) /\
  Maybe (Try ab) (start "ac")
    = Ret (VNil, None) (set_Pos {| Source := "ac"; Pos := 1; Line := 1 |} 0) /\
  exists xs st', Many 4 (Try Digit) (start "12a") = Ret (VList xs, None) st'.
Proof.
  split; [|split].
  - apply (proj1 (Try_recovers ab (start "abac")) 3%nat (VList [VByte "b"])
             None {| Source := "abac"; Pos := 2; Line := 1 |}).
    reflexivity.
  - apply (proj1 (proj2 (Try_recovers ab (start "ac"))) VNil
             (Some (EParse {| Reason := "Expected 'b'"; ErrLine := 1 |}))).
    reflexivity.
  - apply (proj1 (proj2 (proj2 (Try_recovers Digit (start "12a"))))
             in_bounds remaining (OneOf_returns "0123456789") 4%nat).
    + split; [simpl; lia | vm_compute; discriminate].
    + vm_compute. lia.
Defined.

(** X11. [Between start end p] succeeds exactly when [start], [p] and [end]
    succeed one after the other, with [p]'s value and in the state [end]
    left.  It fails, with nil, with the error of the first of the three that
    fails and in the state that one left: what was consumed before stays
    consumed. *)
Theorem Between_law (start_ end_ p : Parser) (st st' : ParseState)
  (v : Value) (e : error) :
  (Between start_ end_ p st = Ret (v, None) st' <->
   exists y st1 st2 z,
     start_ st = Ret (y, None) st1 /\
     p st1 = Ret (v, None) st2 /\
     end_ st2 = Ret (z, None) st') /\
  (Between start_ end_ p st = Ret (v, Some e) st' <->
   v = VNil /\
   ((exists y, start_ st = Ret (y, Some e) st') \/
    (exists y st1, start_ st = Ret (y, None) st1 /\
       ((exists x, p st1 = Ret (x, Some e) st') \/
        (exists x st2 z, p st1 = Ret (x, None) st2 /\
                         end_ st2 = Ret (z, Some e) st'))))).
Proof.
  split; [apply Between_success | apply Between_failure].
Qed.

Lemma Between_law_witness :
  Between (Char "(") (Char ")") Digit (start "(5)")
    = Ret (VByte "5", None) {| Source := "(5)"; Pos := 3; Line := 1 |}.
Proof.
  apply (proj1 (Between_law (Char "(") (Char ")") Digit (start "(5)")
                  {| Source := "(5)"; Pos := 3; Line := 1 |} (VByte "5")
                  (EOther ""))).
  exists (VByte "("), {| Source := "(5)"; Pos := 1; Line := 1 |},
         {| Source := "(5)"; Pos := 2; Line := 1 |}, (VByte ")").
  repeat split.
Defined.

Lemma SepBy1_complete_witness :
  SepBy1 2 Digit (Char ",") (start "1,2")
    = Ret (VList [VByte "1"; VByte "2"], None)
        {| Source := "1,2"; Pos := 3; Line := 1 |}.
Proof.
  apply (SepBy1_complete Digit (Char ",") (start "1,2")
           {| Source := "1,2"; Pos := 1; Line := 1 |}
           {| Source := "1,2"; Pos := 3; Line := 1 |}
           {| Source := "1,2"; Pos := 3; Line := 1 |}
           (VByte "1") VNil [VByte ","] [VByte "2"]
           (EParse {| Reason := "Expected ','"; ErrLine := 1 |})).
  - reflexivity.
  - apply sep_run_cons with (st1 := {| Source := "1,2"; Pos := 2; Line := 1 |})
                            (st2 := {| Source := "1,2"; Pos := 3; Line := 1 |});
      [reflexivity | reflexivity | constructor].
  - reflexivity.
  - reflexivity.
  - simpl. lia.
Defined.

Lemma SepBy1_trailing_separator_witness :
  SepBy1 2 Digit (Char ",") (start "1,2,")
    = Ret (VNil,
           Some (EParse {| Reason := "Expected one of '0123456789' but got '"
                                     ++ fmt_c zero ++ "'";
                           ErrLine := 1 |}))
        {| Source := "1,2,"; Pos := 4; Line := 1 |} /\
  SepBy 2 Digit (Char ",") (start "1,2,")
    = Ret (VNil,
           Some (EParse {| Reason := "Expected one of '0123456789' but got '"
                                     ++ fmt_c zero ++ "'";
                           ErrLine := 1 |}))
        {| Source := "1,2,"; Pos := 4; Line := 1 |}.
Proof.
  apply (SepBy1_trailing_separator Digit (Char ",") (start "1,2,")
           {| Source := "1,2,"; Pos := 1; Line := 1 |}
           {| Source := "1,2,"; Pos := 3; Line := 1 |}
           {| Source := "1,2,"; Pos := 4; Line := 1 |}
           {| Source := "1,2,"; Pos := 4; Line := 1 |}
           (VByte "1") (VByte ",") VNil [VByte ","] [VByte "2"]).
  - apply OneOf_forward.
  - apply Char_forward.
  - bounded.
  - reflexivity.
  - apply sep_run_cons
      with (st1 := {| Source := "1,2,"; Pos := 2; Line := 1 |})
           (st2 := {| Source := "1,2,"; Pos := 3; Line := 1 |});
      [reflexivity | reflexivity | constructor].
  - reflexivity.
  - simpl. lia.
  - reflexivity.
  - simpl. lia.
Defined.

Lemma SepBy_law_witness :
  SepBy 2 Digit (Char ",") (start "x") = Ret (VList [], None) (start "x").
Proof.
  apply (proj1 (SepBy_law Digit (Char ",") 2%nat (start "x") (start "x") VNil
                  (Some (EParse
                     {| Reason := "Expected one of '0123456789' but got 'x'";
                        ErrLine := 1 |})) eq_refl)
           (EParse {| Reason := "Expected one of '0123456789' but got 'x'";
                      ErrLine := 1 |}));
    reflexivity.
Defined.

(** X15. [ManyTil] and its runs.  A success of [ManyTil p end] is a run in
    which the terminator fails and [p] succeeds once per element, [p]
    starting from the state the failed terminator left with the position
    put back, until the terminator succeeds; its state is the one the
    terminator left.  Every such run is returned, given fuel beyond its
    length.  When the terminator fails and [p] then fails, [ManyTil] fails
    with [p]'s error in the state [p] left. *)
Theorem ManyTil_runs (p end_ : Parser) :
  (forall fuel st st' v,
     ManyTil fuel p end_ st = Ret (v, None) st' ->
     exists xs, v = VList xs /\ til_run p end_ st xs st') /\
  (forall st xs st',
     til_run p end_ st xs st' ->
     forall fuel, (List.length xs < fuel)%nat ->
     ManyTil fuel p end_ st = Ret (VList xs, None) st') /\
  (forall fuel st st1 st2 y x e e',
     end_ st = Ret (y, Some e) st1 ->
     p (set_Pos st1 (Pos st)) = Ret (x, Some e') st2 ->
     ManyTil (S fuel) p end_ st = Ret (VNil, Some e') st2).
Proof.
  split; [|split].
  - intros fuel. apply ManyTil_sound.
  - intros st xs st'. apply ManyTil_complete.
  - intros fuel st st1 st2 y x e e'. apply ManyTil_element_fails.
Qed.

Lemma ManyTil_runs_witness :
  (exists xs,
     VList [VByte "a"] = VList xs /\
     til_run AnyChar (Char ";") (start "a;") xs
       {| Source := "a;"; Pos := 2; Line := 1 |}) /\
  ManyTil 1 AnyChar (Char ";") (start "")
    = Ret (VNil,
           Some (EParse {| Reason := "Unexpected end of file"; ErrLine := 1 |}))
        (start "").
Proof.
  split.
  - apply (proj1 (ManyTil_runs AnyChar (Char ";")) 2%nat (start "a;")).
    reflexivity.
  - apply (proj2 (proj2 (ManyTil_runs AnyChar (Char ";"))) 0%nat (start "")
             (start "") (start "") VNil VNil
             (EParse {| Reason := "Expected ';'"; ErrLine := 1 |}));
      reflexivity.
Defined.

Lemma ManyTil_reads_until_witness :
  exists r,
    VList [VByte "a"; VByte "b"; VByte "c"] = VList (bytes r) /\
    substring (Z.to_nat (Pos (start "abcSTOP!"))) (String.length (r ++ "STOP"))
      (Source (start "abcSTOP!")) = r ++ "STOP" /\
    Pos {| Source := "abcSTOP!"; Pos := 7; Line := 1 |}
      = Pos (start "abcSTOP!") + len r + len "STOP" /\
    Source {| Source := "abcSTOP!"; Pos := 7; Line := 1 |}
      = Source (start "abcSTOP!") /\
    forall k : nat, (k < String.length r)%nat ->
      substring (Z.to_nat (Pos (start "abcSTOP!")) + k) (String.length "STOP")
        (Source (start "abcSTOP!")) <> "STOP".
Proof.
  apply (ManyTil_reads_until "STOP" 4%nat (start "abcSTOP!")).
  - bounded.
  - reflexivity.
Defined.

Lemma combinators_orderly_witness :
  orderly (Many 3 (Either (Char "a") (Try (String "bc")))).
Proof.
  destruct combinators_orderly
    as [_ [_ [HEither [HTry [_ [_ [_ [HMany _]]]]]]]].
  apply HMany, HEither.
  - exact (matcher_orderly _ _ (Char_matcher "a")).
  - apply HTry, String_orderly.
Defined.

Lemma Parse_orderly_witness :
  match Parse "aab" (Many 3 (Char "a")) with
  | Ret (v, err) st' =>
      0 <= Pos st' <= len "aab" /\ Source st' = "aab" /\
      (err <> None -> v = VNil)
  | Panic => False
  | Diverge => True
  end.
Proof.
  apply (Parse_orderly "aab" (Many 3 (Char "a"))).
  - apply Many_orderly. exact (matcher_orderly _ _ (Char_matcher "a")).
  - vm_compute. discriminate.
Defined.

Lemma Eol_only_at_end_witness :
  Eol (start "") = Ret (VNil, None) (start "") /\
  Eol (start (String.String newline EmptyString))
    = Ret (VNil,
           Some (EParse {| Reason := "Expected end of file but got '"
                                     ++ String.String newline "'";
                           ErrLine := 2 |}))
        {| Source := String.String newline EmptyString;
           Pos := 1; Line := 2 |}.
Proof.
  split.
  - apply (Eol_only_at_end (start "")). bounded.
  - apply (Eol_only_at_end (start (String.String newline EmptyString))).
    bounded.
Defined.

Lemma HexDigit_rejects_b_witness :
  HexDigit (start "beef")
    = Ret (VNil,
           Some (EParse {| Reason := "Expected one of "
                             ++ "'0123456789acdefABCDEF' but got 'b'";
                           ErrLine := 1 |}))
        (start "beef").
Proof.
  apply (proj1 (HexDigit_rejects_b (start "beef") ltac:(bounded))).
  reflexivity.
Defined.

End parsec.
